(** * Resilience and accounting layer of the Gemini helpers

    A shallow embedding of [src/error_handling.py] (retry with exponential
    backoff, safe generation, safety-block inspection, circuit breaker), of
    [src/cost_tracker.py] (token usage records, the cost tracker, token
    estimation and model recommendation) and of [src/safety_config.py]
    (safety presets and the explanation of ratings), followed by the
    properties proved about them.

    Conventions of the embedding.
    - Python [int] is [Z]; Python [float] (delays, instants, prices) is
      idealised as an exact rational [Q].
    - A wrapped callable is a script [nat -> outcome]: the outcome of its
      i-th invocation.  The wrappers thread a [World] that counts the
      invocations, the clock readings and the random draws they perform and
      records every [time.sleep] they request.
    - An exception caught by [except Exception] is an [exn]: the name of its
      class and the text [str(e)]; messages are ASCII text.
    - [time.sleep(d)] records [d] when it accepts it; it raises on a negative
      duration and on one beyond the platform's limit, and so do the float
      power and the division of integers when the result leaves the float
      range.
    - Calls of [logger] change neither control flow nor state and are left
      out, except in [safe_generate], whose [log_errors] flag only exists
      for them. *)

From Stdlib Require Import ZArith QArith Qminmax Qround Qpower Qabs.
From Stdlib Require Import Bool List String Ascii Lia Lqa.
Import ListNotations.

Local Open Scope Z_scope.

(** ** Exceptions, outcomes and the world of effects *)

Record exn : Type := mk_exn {
  exn_class : string;   (* name of the exception class *)
  exn_str   : string    (* str(e) *)
}.

Inductive outcome (T : Type) : Type :=
| Returns (v : T)
| Raises (e : exn).
Arguments Returns {T} v.
Arguments Raises {T} e.

Record World : Type := mk_world {
  op_calls   : nat;      (* invocations of the wrapped callable so far *)
  time_reads : nat;      (* calls of time.time() so far *)
  rand_draws : nat;      (* calls of random.random() so far *)
  sleeps     : list Q    (* arguments of time.sleep, oldest first *)
}.

Definition world0 : World := mk_world 0 0 0 [].

Definition tick_op (w : World) : World :=
  mk_world (S (op_calls w)) (time_reads w) (rand_draws w) (sleeps w).
Definition tick_time (w : World) : World :=
  mk_world (op_calls w) (S (time_reads w)) (rand_draws w) (sleeps w).
Definition tick_rand (w : World) : World :=
  mk_world (op_calls w) (time_reads w) (S (rand_draws w)) (sleeps w).
Definition sleep (d : Q) (w : World) : World :=
  mk_world (op_calls w) (time_reads w) (rand_draws w) (sleeps w ++ [d]).

(** [a > b] on floats, as a boolean. *)
Definition Qgtb (a b : Q) : bool := negb (Qle_bool a b).

(** The exact value [x] of a float operation is out of the range of binary64:
    it rounds beyond the largest float, [2^1024 - 2^971], which is the case
    from [2^1024 - 2^970] on.  Python raises OverflowError there for [**]
    and for the true division of integers. *)
Definition float_overflows (x : Q) : bool :=
  Qle_bool (inject_Z (2 ^ 1024 - 2 ^ 970)) (Qabs x).

(** ** Circuit breaker: [GeminiErrorHandler.create_circuit_breaker] *)

Module Breaker.

Inductive cb_state : Type := CLOSED | OPEN | HALF_OPEN.

Record CircuitBreaker : Type := mk_cb {
  failure_count     : Z;
  last_failure_time : option Q;   (* None until the first counted failure *)
  state             : cb_state
}.

(** [CircuitBreaker.__init__] *)
Definition init : CircuitBreaker := mk_cb 0 None CLOSED.

(** What one call of the wrapped function gives back to its caller. *)
Inductive call_result (T : Type) : Type :=
| Returned (v : T)            (* return result *)
| Reraised (e : exn)          (* the callable's exception, re-raised or passed through *)
| CircuitOpen (retry_after : Q)
    (* raise Exception("Circuit breaker OPEN. ... Retry after {timeout} seconds.") *)
| TypeError.                  (* time.time() - None *)
Arguments Returned {T} v.
Arguments Reraised {T} e.
Arguments CircuitOpen {T} retry_after.
Arguments TypeError {T}.

(** Result of the test that opens [wrapper]: either the call is let through,
    in a possibly updated breaker, or it ends there. *)
Inductive guard_result (T : Type) : Type :=
| Proceed (cb : CircuitBreaker) (w : World)
| Stop (r : call_result T) (cb : CircuitBreaker) (w : World).
Arguments Proceed {T} cb w.
Arguments Stop {T} r cb w.

Section Wrapper.

Context {T : Type}.
Variable failure_threshold : Z.
Variable timeout : Q.
Variable expected_exception : exn -> bool.   (* isinstance(e, expected_exception) *)
Variable func : nat -> outcome T.            (* the wrapped callable *)
Variable clock : nat -> Q.                   (* successive values of time.time() *)

(** Lines 189-197: the test on [self.state == "OPEN"]. *)
Definition call_guard (cb : CircuitBreaker) (w : World) : guard_result T :=
  match state cb with
  | OPEN =>
      let now := clock (time_reads w) in
      let w1 := tick_time w in
      match last_failure_time cb with
      | None => Stop TypeError cb w1
      | Some t0 =>
          if Qgtb (now - t0) timeout
          then Proceed (mk_cb (failure_count cb) (last_failure_time cb) HALF_OPEN) w1
          else Stop (CircuitOpen timeout) cb w1
      end
  | _ => Proceed cb w
  end.

(** Lines 199-224: the [try] block around the call of [func]. *)
Definition call_body (cb : CircuitBreaker) (w : World)
  : call_result T * CircuitBreaker * World :=
  match func (op_calls w) with
  | Returns v =>
      let w1 := tick_op w in
      let st := match state cb with HALF_OPEN => CLOSED | s => s end in
      (Returned v, mk_cb 0 (last_failure_time cb) st, w1)
  | Raises e =>
      let w1 := tick_op w in
      if expected_exception e then
        let fc := failure_count cb + 1 in
        let now := clock (time_reads w1) in
        let w2 := tick_time w1 in
        let st := if failure_threshold <=? fc then OPEN else state cb in
        (Reraised e, mk_cb fc (Some now) st, w2)
      else (Reraised e, cb, w1)
  end.

(** The function [wrapper] that [call] returns. *)
Definition wrapper (cb : CircuitBreaker) (w : World)
  : call_result T * CircuitBreaker * World :=
  match call_guard cb w with
  | Stop r cb' w' => (r, cb', w')
  | Proceed cb' w' => call_body cb' w'
  end.

(** [n] calls of the wrapper in a row. *)
Fixpoint calls (n : nat) (cb : CircuitBreaker) (w : World)
  : CircuitBreaker * World :=
  match n with
  | O => (cb, w)
  | S n' => let '(_, cb', w') := wrapper cb w in calls n' cb' w'
  end.

(** States a breaker can be in: the initial one, the one left by a call, and
    the one in which [func] runs after the guard let the call through. *)
Inductive reachable : CircuitBreaker -> World -> Prop :=
| reach_init (w : World) : reachable init w
| reach_guard cb w cb' w' :
    reachable cb w -> call_guard cb w = Proceed cb' w' -> reachable cb' w'
| reach_call cb w r cb' w' :
    reachable cb w -> wrapper cb w = (r, cb', w') -> reachable cb' w'.

(** The invariant carried by reachable states. *)
Definition inv (cb : CircuitBreaker) : Prop :=
  (state cb <> CLOSED ->
     failure_threshold <= failure_count cb /\ last_failure_time cb <> None)
  /\ 0 <= failure_count cb.

End Wrapper.
End Breaker.

(** ** Python string operations used by the helpers *)

Module PyStr.

Local Open Scope string_scope.

(** [c.lower()] on one ASCII character; other bytes are left as they are. *)
Definition lower_ascii (c : ascii) : ascii :=
  let n := nat_of_ascii c in
  if ((65 <=? n) && (n <=? 90))%nat then ascii_of_nat (n + 32) else c.

(** [s.lower()] *)
Fixpoint lower (s : string) : string :=
  match s with
  | EmptyString => EmptyString
  | String c s' => String (lower_ascii c) (lower s')
  end.

(** [needle in hay] *)
Fixpoint contains (needle hay : string) : bool :=
  if String.prefix needle hay then true
  else match hay with
       | EmptyString => false
       | String _ hay' => contains needle hay'
       end.

End PyStr.

(** ** Retry with backoff: [GeminiErrorHandler.retry_with_exponential_backoff] *)

Module Retry.

Local Open Scope string_scope.

(** The test of line 77 on [error_msg = str(e).lower()]. *)
Definition non_retryable (e : exn) : bool :=
  let error_msg := PyStr.lower (exn_str e) in
  existsb (fun x => PyStr.contains x error_msg)
          ["invalid api key"; "401"; "403"; "404"].

(** Exceptions that the statements of the [except] block raise themselves
    (lines 83 and 93); they leave the wrapper at once. *)
Inductive handler_error : Type :=
| PowOverflowError      (* exponential_base ** attempt out of the float range *)
| SleepValueError       (* time.sleep(delay) with delay < 0 *)
| SleepOverflowError.   (* time.sleep(delay) with delay beyond the limit *)

(** How a call of the retrying wrapper ends. *)
Inductive retry_result (T : Type) : Type :=
| Returned (v : T)
| Raised (e : exn)     (* [raise] inside the handler, or [raise last_exception] *)
| RaisedNone           (* [raise last_exception] with last_exception = None *)
| HandlerRaised (err : handler_error).
                       (* an exception of the handler's own statements *)
Arguments Returned {T} v.
Arguments Raised {T} e.
Arguments RaisedNone {T}.
Arguments HandlerRaised {T} err.

(** [range(n)] *)
Definition range (n : Z) : list Z := map Z.of_nat (seq 0 (Z.to_nat n)).

Section Wrapper.

Context {T : Type}.
Variable max_retries : Z.
Variables base_delay max_delay exponential_base : Q.
Variable jitter : bool.
Variable func : nat -> outcome T.     (* the wrapped callable *)
Variable random : nat -> Q.           (* successive values of random.random() *)
Variable sleep_max : Q.               (* longest duration time.sleep accepts *)

(** Lines 83-87: the delay slept after the failure of attempt [attempt]. *)
Definition compute_delay (attempt : Z) (w : World) : Q * World :=
  let delay := Qmin (base_delay * exponential_base ^ attempt) max_delay in
  if jitter
  then ((delay * ((1#2) + random (rand_draws w)))%Q, tick_rand w)
  else (delay, w).

(** What [time.sleep(delay)] raises, if anything. *)
Definition sleep_error (delay : Q) : option handler_error :=
  if Qgtb 0 delay then Some SleepValueError
  else if Qgtb delay sleep_max then Some SleepOverflowError
  else None.

(** The [for attempt in range(max_retries + 1)] loop over what is left of the
    range, followed by the final [raise last_exception]. *)
Fixpoint attempts (rng : list Z) (last_exception : option exn) (w : World)
  : retry_result T * World :=
  match rng with
  | [] =>
      match last_exception with
      | Some e => (Raised e, w)
      | None => (RaisedNone, w)
      end
  | attempt :: rest =>
      match func (op_calls w) with
      | Returns v => (Returned v, tick_op w)
      | Raises e =>
          let w1 := tick_op w in
          if non_retryable e then (Raised e, w1)
          else if (attempt <? max_retries)%Z then
            if float_overflows (exponential_base ^ attempt)
            then (HandlerRaised PowOverflowError, w1)
            else
              let '(delay, w2) := compute_delay attempt w1 in
              match sleep_error delay with
              | Some err => (HandlerRaised err, w2)
              | None => attempts rest (Some e) (sleep delay w2)
              end
          else attempts rest (Some e) w1
      end
  end.

Definition wrapper (w : World) : retry_result T * World :=
  attempts (range (max_retries + 1)) None w.

(** The callable fails at its invocation number [i] with an error that the
    wrapper retries. *)
Definition retryable_failure_at (i : nat) : Prop :=
  exists e, func i = Raises e /\ non_retryable e = false.

(** The policy only produces delays that the handler can compute and sleep:
    for every attempt that may be followed by a retry, the power stays in the
    float range and [time.sleep] accepts the delay. *)
Definition delays_accepted : Prop :=
  forall attempt, 0 <= attempt < max_retries ->
    float_overflows (exponential_base ^ attempt) = false /\
    forall w, sleep_error (fst (compute_delay attempt w)) = None.

End Wrapper.
End Retry.

(** ** Safe generation: [GeminiErrorHandler.safe_generate] *)

Module Safe.

Local Open Scope string_scope.

(** First component of the pair, when [safe_generate] puts something
    there: what [generate_func] returned ([Generated v], where the object [v]
    may itself be Python's None), or the fallback text.  The [None] of the
    pair's first component in [safe_generate] is the None of line 129. *)
Inductive response (T : Type) : Type :=
| Generated (v : T)
| Text (s : string).
Arguments Generated {T} v.
Arguments Text {T} s.

(** Truth value of an [Optional[str]]: None and the empty string are false. *)
Definition truthy (s : option string) : bool :=
  match s with
  | None => false
  | Some EmptyString => false
  | Some _ => true
  end.

(** Returns the pair and the messages given to [logger.error]. *)
Definition safe_generate {T : Type} (generate_func : unit -> outcome T)
    (fallback_response : option string) (log_errors : bool)
  : (option (response T) * option exn) * list string :=
  match generate_func tt with
  | Returns r => ((Some (Generated r), None), [])
  | Raises e =>
      let logged := if log_errors then ["Generation failed: " ++ exn_str e] else [] in
      if truthy fallback_response
      then match fallback_response with
           | Some s => ((Some (Text s), Some e), logged)
           | None => ((None, Some e), logged)
           end
      else ((None, Some e), logged)
  end.

End Safe.

(** ** Safety-block inspection: [GeminiErrorHandler.handle_safety_block] *)

Module SafetyBlock.

Local Open Scope string_scope.

(** The response is read through [hasattr]/[getattr]; an attribute that the
    object does not have is [None] here.  Values that only reach an f-string
    are kept as their text. *)
Record Feedback : Type := mk_feedback {
  block_reason : option string            (* str(feedback.block_reason) *)
}.

Record Candidate : Type := mk_candidate {
  finish_reason  : option string;
  safety_ratings : option string          (* str(candidate.safety_ratings) *)
}.

Record Response : Type := mk_response {
  prompt_feedback : option Feedback;
  candidates      : option (list Candidate)
}.

(** [candidate.finish_reason in ['SAFETY', 'BLOCKED']] *)
Definition is_block_reason (r : string) : bool :=
  existsb (String.eqb r) ["SAFETY"; "BLOCKED"].

(** Text of [getattr(candidate, 'safety_ratings', [])] in the f-string. *)
Definition ratings_text (candidate : Candidate) : string :=
  match safety_ratings candidate with
  | Some s => s
  | None => "[]"
  end.

(** Lines 150-155. *)
Definition check_candidates (response : Response) : bool * option string :=
  match candidates response with
  | Some (candidate :: _) =>
      match finish_reason candidate with
      | Some r =>
          if is_block_reason r
          then (true,
                Some ("Content blocked. Safety ratings: " ++ ratings_text candidate))
          else (false, None)
      | None => (false, None)
      end
  | _ => (false, None)
  end.

Definition handle_safety_block (response : Response) : bool * option string :=
  match prompt_feedback response with
  | Some feedback =>
      match block_reason feedback with
      | Some reason => (true, Some ("Blocked: " ++ reason))
      | None => check_candidates response
      end
  | None => check_candidates response
  end.

(** The response carries no request-level block indicator: no
    [prompt_feedback], or one without [block_reason]. *)
Definition no_block_indicator (response : Response) : Prop :=
  match prompt_feedback response with
  | Some feedback => block_reason feedback = None
  | None => True
  end.

End SafetyBlock.

(** ** Token usage and cost tracking: [src/cost_tracker.py] *)

Module Cost.

Local Open Scope string_scope.

(** [round(x)] to an integer, ties to even. *)
Definition round_half_even (x : Q) : Z :=
  let f := Qfloor x in
  match (x - inject_Z f ?= 1#2)%Q with
  | Lt => f
  | Gt => (f + 1)%Z
  | Eq => if Z.even f then f else (f + 1)%Z
  end.

(** [round(x, ndigits)] for [ndigits >= 0]. *)
Definition round (x : Q) (ndigits : Z) : Q :=
  (inject_Z (round_half_even (x * 10 ^ ndigits)) / 10 ^ ndigits)%Q.

Record Rates : Type := mk_rates { input : Q; output : Q }.

(** The [pricing] dict of [cost_estimate], in insertion order; rates are per
    1K tokens. *)
Definition pricing : list (string * Rates) :=
  [ ("gemini-2.5-flash", mk_rates (1875 # 100000000) (75 # 1000000));
    ("gemini-2.5-pro",   mk_rates (125 # 1000000) (625 # 1000000));
    ("gemini-2.0-flash", mk_rates (1875 # 100000000) (75 # 1000000));
    ("gemini-pro",       mk_rates (5 # 10000) (15 # 10000)) ].

(** [pricing[key]] *)
Fixpoint getitem (d : list (string * Rates)) (key : string) : option Rates :=
  match d with
  | [] => None
  | (k, v) :: d' => if String.eqb k key then Some v else getitem d' key
  end.

(** The loop of lines 58-62: the first key contained in the lowered model. *)
Fixpoint find_model_key (keys : list string) (model_lower : string)
  : option string :=
  match keys with
  | [] => None
  | key :: keys' =>
      if PyStr.contains key model_lower then Some key
      else find_model_key keys' model_lower
  end.

Module TokenUsage.

Record t : Type := mk {
  prompt_tokens     : Z;
  completion_tokens : Z;
  total_tokens      : Z;
  model             : string;
  timestamp         : Q
}.

(** The [cost_estimate] property cannot be computed: one of the divisions
    [self.prompt_tokens / 1000], [self.completion_tokens / 1000] of line 69
    and 70 leaves the float range and raises OverflowError. *)
Definition cost_estimate_overflows (self : t) : bool :=
  float_overflows (inject_Z (prompt_tokens self) / 1000)
  || float_overflows (inject_Z (completion_tokens self) / 1000).

(** The [cost_estimate] property: the value it returns when it returns. *)
Definition cost_estimate (self : t) : Q :=
  let model_key :=
    match find_model_key (map fst pricing) (PyStr.lower (model self)) with
    | Some key => key
    | None => "gemini-pro"
    end in
  match getitem pricing model_key with
  | Some rates =>
      let input_cost := (inject_Z (prompt_tokens self) / 1000 * input rates)%Q in
      let output_cost := (inject_Z (completion_tokens self) / 1000 * output rates)%Q in
      (input_cost + output_cost)%Q
  | None => 0%Q     (* KeyError; [getitem_model_key] shows it cannot happen *)
  end.

End TokenUsage.

(** The part of an API response that [add_from_response] reads.  The counts
    are integers, as the API delivers them; [None] is an attribute that is
    missing or holds Python's None: reading it, or adding it to the other
    count, raises inside the [try] before [add_usage] changes anything. *)
Record UsageMetadata : Type := mk_metadata {
  prompt_token_count     : option Z;
  candidates_token_count : option Z
}.

Record ApiResponse : Type := mk_api_response {
  usage_metadata : option UsageMetadata
}.

(** The dict returned by [get_summary]. *)
Module Summary.
Record t : Type := mk {
  total_requests             : Z;
  total_tokens               : Z;
  prompt_tokens              : Z;
  completion_tokens          : Z;
  estimated_cost_usd         : Q;
  average_tokens_per_request : Q;
  average_cost_per_request   : Q
}.
End Summary.

Module CostTracker.

Record t : Type := mk {
  usage_history            : list TokenUsage.t;
  _total_prompt_tokens     : Z;
  _total_completion_tokens : Z;
  _total_cost              : Q
}.

(** [CostTracker.__init__] *)
Definition init : t := mk [] 0 0 0.

(** [add_usage] when it returns: the record it returns and the tracker it
    leaves.  [now] is the value [datetime.now()] gives the new record.  The
    call with its raising path is [add_usage_call] below. *)
Definition add_usage (self : t) (now : Q)
    (prompt_tokens completion_tokens : Z) (model : string)
  : TokenUsage.t * t :=
  let usage := TokenUsage.mk prompt_tokens completion_tokens
                 (prompt_tokens + completion_tokens) model now in
  (usage,
   mk (usage_history self ++ [usage])
      (_total_prompt_tokens self + prompt_tokens)
      (_total_completion_tokens self + completion_tokens)
      (_total_cost self + TokenUsage.cost_estimate usage)%Q).

(** [add_from_response] when the [add_usage] it calls returns; the call with
    every path is [add_from_response_call] below. *)
Definition add_from_response (self : t) (now : Q)
    (response : ApiResponse) (model : string)
  : option TokenUsage.t * t :=
  match usage_metadata response with
  | Some metadata =>
      match prompt_token_count metadata, candidates_token_count metadata with
      | Some p, Some c =>
          let '(usage, self') := add_usage self now p c model in
          (Some usage, self')
      | _, _ => (None, self)         (* except Exception: return None *)
      end
  | None => (None, self)
  end.

(** How a call of [add_usage] ends. *)
Inductive add_usage_result : Type :=
| UsageReturned (usage : TokenUsage.t)
| UsageOverflowError.    (* raised by usage.cost_estimate, line 111 *)

(** A call of [add_usage], statement by statement (lines 101-113): the record
    is appended and the two token totals are updated before
    [usage.cost_estimate] is evaluated, so an OverflowError of the estimate
    leaves them in the tracker. *)
Definition add_usage_call (self : t) (now : Q)
    (prompt_tokens completion_tokens : Z) (model : string)
  : add_usage_result * t :=
  let usage := TokenUsage.mk prompt_tokens completion_tokens
                 (prompt_tokens + completion_tokens) model now in
  let history := (usage_history self ++ [usage])%list in
  let total_prompt := _total_prompt_tokens self + prompt_tokens in
  let total_completion := _total_completion_tokens self + completion_tokens in
  if TokenUsage.cost_estimate_overflows usage
  then (UsageOverflowError,
        mk history total_prompt total_completion (_total_cost self))
  else (UsageReturned usage,
        mk history total_prompt total_completion
           (_total_cost self + TokenUsage.cost_estimate usage)%Q).

(** A call of [add_from_response] (lines 126-141): an exception raised while
    reading the counts or inside [add_usage] is caught and gives [None]. *)
Definition add_from_response_call (self : t) (now : Q)
    (response : ApiResponse) (model : string)
  : option TokenUsage.t * t :=
  match usage_metadata response with
  | Some metadata =>
      match prompt_token_count metadata, candidates_token_count metadata with
      | Some p, Some c =>
          match add_usage_call self now p c model with
          | (UsageReturned usage, self') => (Some usage, self')
          | (UsageOverflowError, self') => (None, self')
          end
      | _, _ => (None, self)
      end
  | None => (None, self)
  end.

Definition total_tokens (self : t) : Z :=
  _total_prompt_tokens self + _total_completion_tokens self.


Definition request_count (self : t) : Z :=
  Z.of_nat (List.length (usage_history self)).

Definition get_summary (self : t) : Summary.t :=
  Summary.mk
    (request_count self)
    (total_tokens self)
    (_total_prompt_tokens self)
    (_total_completion_tokens self)
    (round (_total_cost self) 4)
    (if (0 <? request_count self)%Z
     then round (inject_Z (total_tokens self) / inject_Z (request_count self)) 2
     else 0%Q)
    (if (0 <? request_count self)%Z
     then round (_total_cost self / inject_Z (request_count self)) 4
     else 0%Q).

Definition reset (self : t) : t := mk [] 0 0 0.

(** The operations that change a tracker, each of them returning, and a run
    of them. *)
Inductive operation : Type :=
| AddUsage (now : Q) (prompt_tokens completion_tokens : Z) (model : string)
| AddFromResponse (now : Q) (response : ApiResponse) (model : string)
| Reset.

Definition apply (self : t) (o : operation) : t :=
  match o with
  | AddUsage now p c m => snd (add_usage self now p c m)
  | AddFromResponse now r m => snd (add_from_response self now r m)
  | Reset => reset self
  end.

Definition run (ops : list operation) : t := fold_left apply ops init.

(** The folds over the stored records that the aggregates are compared to. *)
Definition sum_prompt (l : list TokenUsage.t) : Z :=
  fold_right (fun u acc => TokenUsage.prompt_tokens u + acc) 0 l.
Definition sum_completion (l : list TokenUsage.t) : Z :=
  fold_right (fun u acc => TokenUsage.completion_tokens u + acc) 0 l.
Definition sum_cost (l : list TokenUsage.t) : Q :=
  fold_right (fun u acc => (TokenUsage.cost_estimate u + acc)%Q) 0%Q l.

(** The running aggregates agree with the stored records. *)
Definition consistent (self : t) : Prop :=
  _total_prompt_tokens self = sum_prompt (usage_history self) /\
  _total_completion_tokens self = sum_completion (usage_history self) /\
  (_total_cost self == sum_cost (usage_history self))%Q.









End CostTracker.

(** [estimate_tokens]: [len(text) // 4] *)
Definition estimate_tokens (text : string) : Z :=
  Z.of_nat (String.length text) / 4.

(** [recommend_model] *)
Definition recommend_model (prompt_length : Z)
    (quality_priority cost_priority : bool) : string :=
  if cost_priority then "gemini-2.5-flash"
  else if quality_priority then "gemini-2.5-pro"
  else if (prompt_length <? 1000)%Z then "gemini-2.5-flash"
  else "gemini-2.5-pro".

End Cost.

(** ** Safety settings: [src/safety_config.py] *)

Module SafetyConfig.

Local Open Scope string_scope.

Inductive SafetyThreshold : Type :=
| BLOCK_NONE | BLOCK_ONLY_HIGH | BLOCK_MEDIUM_AND_ABOVE | BLOCK_LOW_AND_ABOVE.

Inductive SafetyCategory : Type :=
| HARASSMENT | HATE_SPEECH | SEXUALLY_EXPLICIT | DANGEROUS_CONTENT.

(** [threshold.value] *)
Definition threshold_value (t : SafetyThreshold) : string :=
  match t with
  | BLOCK_NONE => "BLOCK_NONE"
  | BLOCK_ONLY_HIGH => "BLOCK_ONLY_HIGH"
  | BLOCK_MEDIUM_AND_ABOVE => "BLOCK_MEDIUM_AND_ABOVE"
  | BLOCK_LOW_AND_ABOVE => "BLOCK_LOW_AND_ABOVE"
  end.

(** [category.value] *)
Definition category_value (c : SafetyCategory) : string :=
  match c with
  | HARASSMENT => "HARM_CATEGORY_HARASSMENT"
  | HATE_SPEECH => "HARM_CATEGORY_HATE_SPEECH"
  | SEXUALLY_EXPLICIT => "HARM_CATEGORY_SEXUALLY_EXPLICIT"
  | DANGEROUS_CONTENT => "HARM_CATEGORY_DANGEROUS_CONTENT"
  end.

(** Iteration over the enum [SafetyCategory]: its members in definition
    order. *)
Definition all_categories : list SafetyCategory :=
  [HARASSMENT; HATE_SPEECH; SEXUALLY_EXPLICIT; DANGEROUS_CONTENT].

(** One [{"category": ..., "threshold": ...}] dict. *)
Record Setting : Type := mk_setting {
  category  : string;
  threshold : string
}.

Module SafetyPreset.

Definition permissive : list Setting :=
  map (fun c => mk_setting (category_value c) (threshold_value BLOCK_ONLY_HIGH))
      all_categories.

Definition moderate : list Setting :=
  map (fun c => mk_setting (category_value c) (threshold_value BLOCK_MEDIUM_AND_ABOVE))
      all_categories.

Definition strict : list Setting :=
  map (fun c => mk_setting (category_value c) (threshold_value BLOCK_LOW_AND_ABOVE))
      all_categories.

Definition custom (harassment hate_speech sexually_explicit dangerous_content
                   : SafetyThreshold) : list Setting :=
  [ mk_setting (category_value HARASSMENT) (threshold_value harassment);
    mk_setting (category_value HATE_SPEECH) (threshold_value hate_speech);
    mk_setting (category_value SEXUALLY_EXPLICIT) (threshold_value sexually_explicit);
    mk_setting (category_value DANGEROUS_CONTENT) (threshold_value dangerous_content) ].

End SafetyPreset.

(** [get_safety_settings_for_genai] *)
Definition get_safety_settings_for_genai : list Setting := SafetyPreset.moderate.

(** The threshold that a list of settings gives a category: the first dict
    whose "category" is the category's value. *)
Fixpoint threshold_of (settings : list Setting) (c : SafetyCategory)
  : option string :=
  match settings with
  | [] => None
  | s :: settings' =>
      if String.eqb (category s) (category_value c) then Some (threshold s)
      else threshold_of settings' c
  end.

(** A rating dict as [explain_safety_rating] reads it: [None] is a missing
    key, a present value is kept as its text. *)
Record Rating : Type := mk_rating {
  rating_category    : option string;
  rating_probability : option string
}.

(** The newline character. *)
Definition nl : string := String (ascii_of_nat 10) EmptyString.

(** [sep.join(parts)] *)
Fixpoint join (sep : string) (parts : list string) : string :=
  match parts with
  | [] => ""
  | [x] => x
  | x :: rest => x ++ sep ++ join sep rest
  end.

(** [rating.get(key, "UNKNOWN")] *)
Definition get_or_unknown (v : option string) : string :=
  match v with
  | Some s => s
  | None => "UNKNOWN"
  end.

(** The line appended for one rating. *)
Definition explanation (rating : Rating) : string :=
  "  - " ++ get_or_unknown (rating_category rating) ++ ": "
         ++ get_or_unknown (rating_probability rating).

(** [explain_safety_rating] *)
Definition explain_safety_rating (safety_ratings : list Rating) : string :=
  match safety_ratings with
  | [] => "No safety ratings available."
  | _ => "Safety Ratings:" ++ nl ++ join nl (map explanation safety_ratings)
  end.

(** Number of newline characters of a text. *)
Fixpoint count_nl (s : string) : nat :=
  match s with
  | EmptyString => 0
  | String c s' =>
      (if Ascii.eqb c (ascii_of_nat 10) then 1 else 0) + count_nl s'
  end.

End SafetyConfig.

(** * Properties *)

Lemma Qgtb_true (a b : Q) : Qgtb a b = true <-> (b < a)%Q.
Proof.
  unfold Qgtb. rewrite negb_true_iff.
  split; intro H.
  - apply Qnot_le_lt. intro Hle. apply Qle_bool_iff in Hle. congruence.
  - destruct (Qle_bool a b) eqn:E; [|reflexivity].
    apply Qle_bool_iff in E. exfalso. apply (Qlt_not_le _ _ H E).
Qed.

Lemma Qgtb_false (a b : Q) : Qgtb a b = false <-> (a <= b)%Q.
Proof.
  unfold Qgtb. rewrite negb_false_iff. apply Qle_bool_iff.
Qed.

(** ** The circuit breaker *)

Module BreakerProofs.
Import Breaker.

Section Props.

Context {T : Type}.
Variable failure_threshold : Z.
Variable timeout : Q.
Variable expected_exception : exn -> bool.
Variable func : nat -> outcome T.
Variable clock : nat -> Q.

Local Abbreviation call_guard := (call_guard (T:=T) timeout clock).
Local Abbreviation call_body := (call_body failure_threshold expected_exception func clock).
Local Abbreviation wrapper := (wrapper failure_threshold timeout expected_exception func clock).
Local Abbreviation calls := (calls failure_threshold timeout expected_exception func clock).
Local Abbreviation reachable := (reachable failure_threshold timeout expected_exception func clock).
Local Abbreviation inv := (inv failure_threshold).

Lemma inv_init : inv init.
Proof. split; [intros H; now elim H | simpl; lia]. Qed.

Lemma inv_guard cb w cb' w' :
  inv cb -> call_guard cb w = Proceed cb' w' -> inv cb'.
Proof.
  intros [Hi Hn] Hg. unfold Breaker.call_guard in Hg.
  destruct (state cb) eqn:Es.
  - inversion Hg; subst. split; [intro H; congruence | assumption].
  - destruct (last_failure_time cb) as [t0|] eqn:El; [|discriminate].
    destruct (Qgtb _ _); [|discriminate].
    inversion Hg; subst. split; simpl; [intros _|assumption].
    split; [apply Hi; congruence | discriminate].
  - inversion Hg; subst. split; [intros _; apply Hi; congruence | assumption].
Qed.

Lemma guard_not_open cb w cb' w' :
  call_guard cb w = Proceed cb' w' -> state cb' <> OPEN.
Proof.
  unfold Breaker.call_guard. destruct (state cb) eqn:Es.
  - intros H; inversion H; subst; congruence.
  - destruct (last_failure_time cb); [|discriminate].
    destruct (Qgtb _ _); [|discriminate].
    intros H; inversion H; subst; simpl; congruence.
  - intros H; inversion H; subst; congruence.
Qed.

Lemma guard_stop_same cb w r cb' w' :
  call_guard cb w = Stop r cb' w' -> cb' = cb /\ op_calls w' = op_calls w.
Proof.
  unfold Breaker.call_guard. destruct (state cb); try discriminate.
  destruct (last_failure_time cb).
  - destruct (Qgtb _ _); [discriminate|]. intros H; now inversion H.
  - intros H; now inversion H.
Qed.

Lemma inv_body cb w r cb' w' :
  inv cb -> state cb <> OPEN -> call_body cb w = (r, cb', w') -> inv cb'.
Proof.
  intros [Hi Hn] Hno Hb. unfold Breaker.call_body in Hb.
  destruct (func (op_calls w)) as [v|e].
  - inversion Hb; subst; clear Hb. split; simpl; [|lia].
    destruct (state cb); congruence.
  - destruct (expected_exception e).
    + inversion Hb; subst; clear Hb. split; simpl; [|lia].
      destruct (Z.leb_spec failure_threshold (failure_count cb + 1)) as [Hle|Hlt].
      * intros _. split; [assumption|discriminate].
      * intros Hs. destruct (Hi Hs) as [Hge _]. lia.
    + inversion Hb; subst. now split.
Qed.

Lemma inv_wrapper cb w r cb' w' :
  inv cb -> wrapper cb w = (r, cb', w') -> inv cb'.
Proof.
  intros Hinv Hw. unfold Breaker.wrapper in Hw.
  destruct (call_guard cb w) as [cb1 w1|r1 cb1 w1] eqn:Eg.
  - eapply inv_body; [eapply inv_guard; eauto | eapply guard_not_open; eauto | eauto].
  - inversion Hw; subst. destruct (guard_stop_same _ _ _ _ _ Eg) as [-> _].
    assumption.
Qed.

Lemma reachable_inv cb w : reachable cb w -> inv cb.
Proof.
  induction 1 as [w|cb w cb' w' _ IH Hg|cb w r cb' w' _ IH Hw].
  - apply inv_init.
  - eapply inv_guard; eauto.
  - eapply inv_wrapper; eauto.
Qed.

(** One counted failure of a call that the guard lets through unchanged. *)
Lemma wrapper_failure cb w e :
  state cb <> OPEN ->
  func (op_calls w) = Raises e -> expected_exception e = true ->
  wrapper cb w =
    (Reraised e,
     mk_cb (failure_count cb + 1) (Some (clock (time_reads w)))
           (if failure_threshold <=? failure_count cb + 1 then OPEN else state cb),
     tick_time (tick_op w)).
Proof.
  intros Hs Hf He. unfold Breaker.wrapper, Breaker.call_guard.
  destruct (state cb) eqn:Es; try congruence;
    unfold Breaker.call_body; rewrite Hf, He, Es; reflexivity.
Qed.

(** Failures that stay below the threshold keep a closed breaker closed and
    are all counted. *)
Lemma calls_below_threshold (m : nat) : forall cb w,
  state cb = CLOSED ->
  failure_count cb + Z.of_nat m < failure_threshold ->
  (forall i, (i < m)%nat ->
     exists e, func (op_calls w + i) = Raises e /\ expected_exception e = true) ->
  exists cb' w',
    calls m cb w = (cb', w') /\ state cb' = CLOSED /\
    failure_count cb' = failure_count cb + Z.of_nat m /\
    op_calls w' = (op_calls w + m)%nat.
Proof.
  induction m as [|m IH]; intros cb w Hs Hlt Hf.
  - exists cb, w. simpl. repeat split; try reflexivity; try assumption; lia.
  - destruct (Hf 0%nat ltac:(lia)) as (e & He & Hx).
    rewrite Nat.add_0_r in He.
    cbn [Breaker.calls].
    rewrite (wrapper_failure cb w e); [|congruence|assumption|assumption].
    destruct (Z.leb_spec failure_threshold (failure_count cb + 1)) as [Hge|_]; [lia|].
    rewrite Hs.
    destruct (IH (mk_cb (failure_count cb + 1) (Some (clock (time_reads w))) CLOSED)
                 (tick_time (tick_op w))) as (cb' & w' & Hc & Hs' & Hfc & Hoc).
    + reflexivity.
    + simpl. lia.
    + intros i Hi. simpl. specialize (Hf (S i) ltac:(lia)).
      now rewrite Nat.add_succ_r in Hf.
    + exists cb', w'. rewrite Hc. simpl in Hfc, Hoc. repeat split; try assumption; lia.
Qed.

Lemma calls_app (m k : nat) : forall cb w,
  calls (m + k) cb w = let '(cb', w') := calls m cb w in calls k cb' w'.
Proof.
  induction m as [|m IH]; intros cb w; simpl; [reflexivity|].
  destruct (wrapper cb w) as [[r cb1] w1]. apply IH.
Qed.

(** C1.  A breaker with threshold [n >= 1], starting closed, whose wrapped
    operation fails [n] times in a row with a matching exception, has invoked
    it [n] times and is open; as long as the time elapsed since that last
    failure is below the timeout, the next call raises the circuit-open error
    and does not invoke the operation. *)
Theorem threshold_failures_open_circuit (n : nat) (w : World) :
  (1 <= n)%nat ->
  failure_threshold = Z.of_nat n ->
  (forall i, (i < n)%nat ->
     exists e, func (op_calls w + i) = Raises e /\ expected_exception e = true) ->
  exists cb w' t,
    calls n init w = (cb, w') /\
    state cb = OPEN /\
    op_calls w' = (op_calls w + n)%nat /\
    last_failure_time cb = Some t /\
    ((clock (time_reads w') - t < timeout)%Q ->
     exists w'',
       wrapper cb w' = (CircuitOpen timeout, cb, w'') /\
       op_calls w'' = op_calls w').
Proof.
  intros Hn Hthr Hf.
  destruct n as [|m]; [lia|].
  replace (S m) with (m + 1)%nat by lia.
  rewrite calls_app.
  destruct (calls_below_threshold m init w) as (cb1 & w1 & Hc & Hs & Hfc & Hoc).
  - reflexivity.
  - simpl. lia.
  - intros i Hi. apply Hf. lia.
  - rewrite Hc. cbn [Breaker.calls].
    destruct (Hf m ltac:(lia)) as (e & He & Hx). rewrite <- Hoc in He.
    rewrite (wrapper_failure cb1 w1 e); [|congruence|assumption|assumption].
    simpl in Hfc.
    destruct (Z.leb_spec failure_threshold (failure_count cb1 + 1)) as [_|Hlt]; [|lia].
    eexists _, _, (clock (time_reads w1)). split; [reflexivity|].
    repeat split.
    + simpl. lia.
    + intros Hel. eexists.
      unfold Breaker.wrapper, Breaker.call_guard. cbn [state last_failure_time].
      cbn [time_reads tick_time tick_op] in *.
      assert (Hg : Qgtb (clock (S (time_reads w1)) - clock (time_reads w1)) timeout = false).
      { apply Qgtb_false. apply Qlt_le_weak. exact Hel. }
      rewrite Hg. split; reflexivity.
Qed.

(** A call made in the open state once more than [timeout] has elapsed goes
    through the half-open state and runs the body there. *)
Lemma guard_past_timeout cb w t :
  state cb = OPEN -> last_failure_time cb = Some t ->
  (timeout < clock (time_reads w) - t)%Q ->
  call_guard cb w =
    Proceed (mk_cb (failure_count cb) (Some t) HALF_OPEN) (tick_time w).
Proof.
  intros Hs Hl Hel. unfold Breaker.call_guard. rewrite Hs, Hl.
  apply Qgtb_true in Hel. now rewrite Hel.
Qed.

(** Up to and including [timeout] the open breaker rejects the call. *)
Lemma guard_within_timeout cb w t :
  state cb = OPEN -> last_failure_time cb = Some t ->
  (clock (time_reads w) - t <= timeout)%Q ->
  wrapper cb w = (CircuitOpen timeout, cb, tick_time w).
Proof.
  intros Hs Hl Hel. unfold Breaker.wrapper, Breaker.call_guard. rewrite Hs, Hl.
  apply Qgtb_false in Hel. now rewrite Hel.
Qed.

Lemma body_invokes cb w :
  op_calls (snd (call_body cb w)) = S (op_calls w).
Proof.
  unfold Breaker.call_body. destruct (func (op_calls w)) as [v|e]; [reflexivity|].
  destruct (expected_exception e); reflexivity.
Qed.

(** C2, amended.  For a breaker in the open state, a call attempted when the
    time elapsed since the last failure is strictly greater than the timeout
    moves the breaker to half-open and invokes the inner operation; if the
    invocation succeeds the call returns its value, the failure count is 0 and
    the state is closed. *)
Theorem open_past_timeout_probes cb w t :
  state cb = OPEN -> last_failure_time cb = Some t ->
  (timeout < clock (time_reads w) - t)%Q ->
  exists cb1 w1,
    call_guard cb w = Proceed cb1 w1 /\
    state cb1 = HALF_OPEN /\
    failure_count cb1 = failure_count cb /\
    op_calls w1 = op_calls w /\
    wrapper cb w = call_body cb1 w1 /\
    op_calls (snd (wrapper cb w)) = S (op_calls w) /\
    (forall v, func (op_calls w) = Returns v ->
       exists cb2 w2,
         wrapper cb w = (Returned v, cb2, w2) /\
         failure_count cb2 = 0 /\ state cb2 = CLOSED).
Proof.
  intros Hs Hl Hel.
  pose proof (guard_past_timeout cb w t Hs Hl Hel) as Hg.
  eexists _, _. split; [exact Hg|].
  assert (Hw : wrapper cb w =
               call_body (mk_cb (failure_count cb) (Some t) HALF_OPEN) (tick_time w)).
  { unfold Breaker.wrapper. now rewrite Hg. }
  repeat split; try assumption.
  - rewrite Hw, body_invokes. reflexivity.
  - intros v Hv. rewrite Hw. unfold Breaker.call_body.
    cbn [op_calls tick_time]. rewrite Hv.
    eexists _, _. split; [reflexivity|]. split; reflexivity.
Qed.

(** C10.  In every reachable state of the breaker, half-open implies that the
    failure count is at least the threshold; hence a single matching failure
    of the call made in that state puts the breaker back to open. *)
Theorem half_open_count_at_threshold cb w :
  reachable cb w -> state cb = HALF_OPEN ->
  failure_threshold <= failure_count cb /\
  (forall w0 e, func (op_calls w0) = Raises e -> expected_exception e = true ->
     let '(r, cb', _) := wrapper cb w0 in
     r = Reraised e /\ state cb' = OPEN).
Proof.
  intros Hr Hs. destruct (reachable_inv cb w Hr) as [Hi _].
  destruct Hi as [Hge _]; [congruence|]. split; [assumption|].
  intros w0 e Hf He.
  rewrite (wrapper_failure cb w0 e); [|congruence|assumption|assumption].
  destruct (Z.leb_spec failure_threshold (failure_count cb + 1)); [|lia].
  split; reflexivity.
Qed.

(** *** Further properties of the breaker *)

(** The world after [m] rejected calls: only the clock has been read. *)
Lemma iter_tick_time (m : nat) (w : World) :
  op_calls (Nat.iter m tick_time w) = op_calls w /\
  time_reads (Nat.iter m tick_time w) = (time_reads w + m)%nat /\
  sleeps (Nat.iter m tick_time w) = sleeps w.
Proof.
  induction m as [|m IH].
  - cbn [Nat.iter nat_rect]. repeat split; try reflexivity; lia.
  - destruct IH as (Ho & Ht & Hs).
    change (Nat.iter (S m) tick_time w) with (tick_time (Nat.iter m tick_time w)).
    cbn [op_calls time_reads sleeps tick_time].
    repeat split; try assumption. rewrite Ht. lia.
Qed.

(** However many calls are made while the elapsed time is at most the
    timeout, an open breaker rejects them all: it stays as it is, the wrapped
    callable is never invoked and each call only reads the clock. *)
Theorem open_rejects_all_within_timeout (m : nat) cb t : forall w,
  state cb = OPEN -> last_failure_time cb = Some t ->
  (forall i, (i < m)%nat -> (clock (time_reads w + i) - t <= timeout)%Q) ->
  calls m cb w = (cb, Nat.iter m tick_time w) /\
  op_calls (Nat.iter m tick_time w) = op_calls w /\
  (forall i, (i < m)%nat ->
     wrapper cb (Nat.iter i tick_time w)
       = (CircuitOpen timeout, cb, Nat.iter (S i) tick_time w)).
Proof.
  intros w Hs Hl Hel.
  assert (Hstep : forall i, (i < m)%nat ->
            wrapper cb (Nat.iter i tick_time w)
              = (CircuitOpen timeout, cb, Nat.iter (S i) tick_time w)).
  { intros i Hi. apply guard_within_timeout with (t := t); try assumption.
    destruct (iter_tick_time i w) as (_ & Ht & _). rewrite Ht. now apply Hel. }
  split; [|split; [apply iter_tick_time | exact Hstep]].
  clear Hel. revert w Hstep.
  induction m as [|m IH]; intros w Hstep; [reflexivity|].
  cbn [Breaker.calls].
  pose proof (Hstep 0%nat ltac:(lia)) as H0. cbn [Nat.iter nat_rect] in H0.
  rewrite H0, Nat.iter_succ_r. apply IH.
  intros i Hi. specialize (Hstep (S i) ltac:(lia)).
  rewrite <- !Nat.iter_succ_r. exact Hstep.
Qed.

(** An exception that does not match [expected_exception] passes through a
    call that the guard let in: it is re-raised, the callable has been
    invoked once, and the breaker is left as the guard handed it over, with
    the failure count and the last failure instant of before the call. *)
Theorem unexpected_exception_not_counted cb w cb1 w1 e :
  call_guard cb w = Proceed cb1 w1 ->
  func (op_calls w1) = Raises e -> expected_exception e = false ->
  wrapper cb w = (Reraised e, cb1, tick_op w1) /\
  failure_count cb1 = failure_count cb /\
  last_failure_time cb1 = last_failure_time cb /\
  (state cb <> OPEN -> cb1 = cb).
Proof.
  intros Hg Hf He. unfold Breaker.wrapper. rewrite Hg.
  unfold Breaker.call_body. rewrite Hf, He. split; [reflexivity|].
  unfold Breaker.call_guard in Hg. destruct (state cb) eqn:Es.
  - inversion Hg; subst. repeat split.
  - destruct (last_failure_time cb) as [t0|] eqn:El; [|discriminate].
    destruct (Qgtb _ _); [|discriminate]. inversion Hg; subst.
    repeat split. intros H. congruence.
  - inversion Hg; subst. repeat split.
Qed.

(** A breaker that is only used through its wrapper never fails on
    [time.time() - None]: the open state always has a last failure instant. *)
Theorem reachable_never_type_error cb w :
  reachable cb w -> forall w0, fst (fst (wrapper cb w0)) <> TypeError.
Proof.
  intros Hr w0. destruct (reachable_inv cb w Hr) as [Hi _].
  unfold Breaker.wrapper, Breaker.call_guard.
  assert (Hb : forall c v, fst (fst (call_body c v)) <> TypeError).
  { intros c v. unfold Breaker.call_body.
    destruct (func (op_calls v)) as [x|e]; [discriminate|].
    destruct (expected_exception e); discriminate. }
  destruct (state cb) eqn:Es; try apply Hb.
  destruct (Hi ltac:(congruence)) as [_ Hl].
  destruct (last_failure_time cb) as [t0|]; [|congruence].
  destruct (Qgtb _ _); [apply Hb | discriminate].
Qed.

(** Failures only count when consecutive: in a closed breaker, [m] matching
    failures that stay below the threshold followed by one success leave the
    breaker closed with a failure count of 0. *)
Theorem success_resets_failure_count (m : nat) cb w v :
  state cb = CLOSED ->
  failure_count cb + Z.of_nat m < failure_threshold ->
  (forall i, (i < m)%nat ->
     exists e, func (op_calls w + i) = Raises e /\ expected_exception e = true) ->
  func (op_calls w + m) = Returns v ->
  exists cb' w',
    calls (m + 1) cb w = (cb', w') /\
    state cb' = CLOSED /\ failure_count cb' = 0 /\
    op_calls w' = (op_calls w + m + 1)%nat.
Proof.
  intros Hs Hlt Hf Hv. rewrite calls_app.
  destruct (calls_below_threshold m cb w Hs Hlt Hf) as (cb1 & w1 & Hc & Hs1 & _ & Ho).
  rewrite Hc. cbn [Breaker.calls].
  unfold Breaker.wrapper, Breaker.call_guard. rewrite Hs1.
  unfold Breaker.call_body. rewrite Ho, Hv, Hs1.
  eexists _, _. split; [reflexivity|].
  cbn [state failure_count op_calls tick_op]. repeat split. lia.
Qed.

(** For a threshold of at least 1, a reachable breaker is closed exactly
    when its failure count is below the threshold, and the count is never
    negative. *)
Theorem closed_iff_below_threshold cb w :
  1 <= failure_threshold -> reachable cb w ->
  0 <= failure_count cb /\
  (state cb = CLOSED <-> failure_count cb < failure_threshold).
Proof.
  intros Hthr Hr.
  assert (Hc : state cb = CLOSED -> failure_count cb < failure_threshold).
  { induction Hr as [w|cb w cb' w' Hr IH Hg|cb w r cb' w' Hr IH Hw].
    - intros _. simpl. lia.
    - unfold Breaker.call_guard in Hg. destruct (state cb) eqn:Es.
      + inversion Hg; subst. intros _. now apply IH.
      + destruct (last_failure_time cb); [|discriminate].
        destruct (Qgtb _ _); [|discriminate]. inversion Hg; subst.
        simpl. discriminate.
      + inversion Hg; subst. congruence.
    - unfold Breaker.wrapper in Hw.
      destruct (call_guard cb w) as [cb1 w1|r1 cb1 w1] eqn:Eg.
      + assert (H1 : state cb1 = CLOSED -> failure_count cb1 < failure_threshold).
        { unfold Breaker.call_guard in Eg. destruct (state cb) eqn:Es.
          - inversion Eg; subst. intros _. now apply IH.
          - destruct (last_failure_time cb); [|discriminate].
            destruct (Qgtb _ _); [|discriminate]. inversion Eg; subst.
            simpl. discriminate.
          - inversion Eg; subst. congruence. }
        unfold Breaker.call_body in Hw.
        destruct (func (op_calls w1)) as [x|e].
        * inversion Hw; subst. simpl. intros _. lia.
        * destruct (expected_exception e).
          -- inversion Hw; subst. simpl.
             destruct (Z.leb_spec failure_threshold (failure_count cb1 + 1));
               [discriminate | intros _; lia].
          -- inversion Hw; subst. exact H1.
      + destruct (guard_stop_same _ _ _ _ _ Eg) as [-> _].
        inversion Hw; subst. exact IH. }
  destruct (reachable_inv cb w Hr) as [Hi Hn].
  split; [exact Hn|]. split; [exact Hc|].
  intros Hlt. destruct (state cb) eqn:Es; [reflexivity| |];
    destruct (Hi ltac:(congruence)) as [Hge _]; lia.
Qed.

End Props.

(** C2 as stated fails on the boundary: with threshold 1 and timeout 60, a
    breaker opened by a failure at instant 0 and called again at instant 60
    (elapsed time equal to the timeout) rejects the call without invoking the
    operation and stays open. *)
Lemma open_at_timeout_boundary_rejects :
  let func := fun i : nat =>
    match i with O => Raises (mk_exn "Exception" "503") | _ => Returns tt end in
  let clock := fun i : nat => match i with O => 0%Q | _ => 60%Q end in
  let cb := fst (calls 1 60 (fun _ => true) func clock 1 init world0) in
  let w := snd (calls 1 60 (fun _ => true) func clock 1 init world0) in
  state cb = OPEN /\ last_failure_time cb = Some 0%Q /\
  (60 <= clock (time_reads w) - 0)%Q /\
  wrapper 1 60 (fun _ => true) func clock cb w = (CircuitOpen 60, cb, tick_time w) /\
  op_calls (tick_time w) = op_calls w /\
  ~ (exists cb1 w1, call_guard (T:=unit) 60 clock cb w = Proceed cb1 w1
                    /\ state cb1 = HALF_OPEN).
Proof.
  cbv zeta. repeat split.
  - vm_compute. discriminate.
  - intros (cb1 & w1 & H & _). vm_compute in H. discriminate.
Qed.

Lemma threshold_failures_open_circuit_witness :
  let func := fun _ : nat => Raises (T:=unit) (mk_exn "Exception" "503") in
  let clock := fun i : nat => inject_Z (Z.of_nat i) in
  exists cb w' t,
    calls 2 60 (fun _ => true) func clock 2 init world0 = (cb, w') /\
    state cb = OPEN /\
    op_calls w' = (op_calls world0 + 2)%nat /\
    last_failure_time cb = Some t /\
    ((clock (time_reads w') - t < 60)%Q ->
     exists w'',
       wrapper 2 60 (fun _ => true) func clock cb w' = (CircuitOpen 60, cb, w'') /\
       op_calls w'' = op_calls w').
Proof.
  intros func clock.
  apply (threshold_failures_open_circuit 2 60 (fun _ => true) func clock 2 world0).
  - lia.
  - reflexivity.
  - intros i _. exists (mk_exn "Exception" "503"). split; reflexivity.
Defined.

Lemma open_past_timeout_probes_witness :
  let func := fun _ : nat => Returns tt in
  let clock := fun _ : nat => 100%Q in
  let cb := mk_cb 1 (Some 0%Q) OPEN in
  exists cb1 w1,
    call_guard (T:=unit) 60 clock cb world0 = Proceed cb1 w1 /\
    state cb1 = HALF_OPEN /\
    failure_count cb1 = failure_count cb /\
    op_calls w1 = op_calls world0 /\
    wrapper 1 60 (fun _ => true) func clock cb world0
      = call_body 1 (fun _ => true) func clock cb1 w1 /\
    op_calls (snd (wrapper 1 60 (fun _ => true) func clock cb world0))
      = S (op_calls world0) /\
    (forall v, func (op_calls world0) = Returns v ->
       exists cb2 w2,
         wrapper 1 60 (fun _ => true) func clock cb world0 = (Returned v, cb2, w2) /\
         failure_count cb2 = 0 /\ state cb2 = CLOSED).
Proof.
  intros func clock cb.
  apply (open_past_timeout_probes 1 60 (fun _ => true) func clock cb world0 0%Q).
  - reflexivity.
  - reflexivity.
  - reflexivity.
Defined.

Lemma half_open_count_at_threshold_witness :
  let func := fun _ : nat => Raises (T:=unit) (mk_exn "Exception" "503") in
  let clock := fun i : nat => match i with O => 0%Q | _ => 100%Q end in
  let cb := mk_cb 1 (Some 0%Q) HALF_OPEN in
  1 <= failure_count cb /\
  (forall w0 e, func (op_calls w0) = Raises e -> (fun _ : exn => true) e = true ->
     let '(r, cb', _) := wrapper 1 60 (fun _ => true) func clock cb w0 in
     r = Reraised e /\ state cb' = OPEN).
Proof.
  intros func clock cb.
  apply (half_open_count_at_threshold 1 60 (fun _ => true) func clock cb
           (tick_time (tick_time (tick_op world0)))).
  - eapply reach_guard.
    + eapply reach_call; [apply (reach_init _ _ _ _ _ world0) | reflexivity].
    + reflexivity.
  - reflexivity.
Defined.

Lemma open_rejects_all_within_timeout_witness :
  let func := fun _ : nat => Returns tt in
  let clock := fun i : nat => inject_Z (Z.of_nat i) in
  let cb := mk_cb 1 (Some 0%Q) OPEN in
  calls 1 60 (fun _ => true) func clock 3 cb world0
    = (cb, Nat.iter 3 tick_time world0) /\
  op_calls (Nat.iter 3 tick_time world0) = op_calls world0 /\
  (forall i, (i < 3)%nat ->
     wrapper 1 60 (fun _ => true) func clock cb (Nat.iter i tick_time world0)
       = (CircuitOpen 60, cb, Nat.iter (S i) tick_time world0)).
Proof.
  intros func clock cb.
  apply (open_rejects_all_within_timeout 1 60 (fun _ => true) func clock 3 cb 0%Q world0).
  - reflexivity.
  - reflexivity.
  - intros i Hi. unfold clock. cbn [time_reads world0 Nat.add].
    unfold Qle, Qminus, Qplus, Qopp, inject_Z. cbn [Qnum Qden]. lia.
Defined.

Lemma unexpected_exception_not_counted_witness :
  let e := mk_exn "KeyError" "missing" in
  let func := fun _ : nat => Raises (T:=unit) e in
  let expected := fun x : exn => String.eqb (exn_class x) "ConnectionError" in
  let clock := fun _ : nat => 0%Q in
  let cb := mk_cb 2 (Some 0%Q) CLOSED in
  wrapper 5 60 expected func clock cb world0 = (Reraised e, cb, tick_op world0) /\
  failure_count cb = failure_count cb /\
  last_failure_time cb = last_failure_time cb /\
  (state cb <> OPEN -> cb = cb).
Proof.
  intros e func expected clock cb.
  apply (unexpected_exception_not_counted 5 60 expected func clock cb world0 cb world0 e).
  - reflexivity.
  - reflexivity.
  - reflexivity.
Defined.

Lemma reachable_never_type_error_witness :
  let func := fun _ : nat => Raises (T:=unit) (mk_exn "Exception" "503") in
  let clock := fun _ : nat => 0%Q in
  fst (fst (wrapper 1 60 (fun _ => true) func clock
              (mk_cb 1 (Some 0%Q) OPEN) (tick_time (tick_op world0))))
    <> TypeError.
Proof.
  intros func clock.
  apply (reachable_never_type_error 1 60 (fun _ => true) func clock
           (mk_cb 1 (Some 0%Q) OPEN) (tick_time (tick_op world0))).
  eapply reach_call; [apply (reach_init _ _ _ _ _ world0) | reflexivity].
Defined.

Lemma success_resets_failure_count_witness :
  let func := fun i : nat =>
    match i with
    | 2%nat => Returns tt
    | _ => Raises (mk_exn "Exception" "503")
    end in
  let clock := fun _ : nat => 0%Q in
  exists cb' w',
    calls 3 60 (fun _ => true) func clock (2 + 1) init world0 = (cb', w') /\
    state cb' = CLOSED /\ failure_count cb' = 0 /\
    op_calls w' = (op_calls world0 + 2 + 1)%nat.
Proof.
  intros func clock.
  apply (success_resets_failure_count 3 60 (fun _ => true) func clock 2 init world0 tt).
  - reflexivity.
  - simpl. lia.
  - intros i Hi. exists (mk_exn "Exception" "503").
    destruct i as [|[|i]]; [split; reflexivity | split; reflexivity | lia].
  - reflexivity.
Defined.

Lemma closed_iff_below_threshold_witness :
  let func := fun _ : nat => Raises (T:=unit) (mk_exn "Exception" "503") in
  let clock := fun _ : nat => 0%Q in
  let cb := mk_cb 1 (Some 0%Q) CLOSED in
  0 <= failure_count cb /\ (state cb = CLOSED <-> failure_count cb < 3).
Proof.
  intros func clock cb.
  apply (closed_iff_below_threshold 3 60 (fun _ => true) func clock cb
           (tick_time (tick_op world0))).
  - lia.
  - eapply reach_call; [apply (reach_init _ _ _ _ _ world0) | reflexivity].
Defined.

End BreakerProofs.

(** ** Python strings *)

Module PyStrProofs.
Import PyStr.

Lemma prefix_lower (x : string) : forall s,
  String.prefix x s = true -> String.prefix (lower x) (lower s) = true.
Proof.
  induction x as [|a x IH]; intros s H; [destruct s; reflexivity|].
  destruct s as [|b s]; [discriminate|].
  cbn [String.prefix lower] in *.
  destruct (ascii_dec a b) as [->|]; [|discriminate].
  destruct (ascii_dec (lower_ascii b) (lower_ascii b)); [|congruence].
  now apply IH.
Qed.

Lemma contains_lower (x : string) : forall s,
  contains x s = true -> contains (lower x) (lower s) = true.
Proof.
  induction s as [|b s IH]; intros H.
  - cbn [contains] in H. destruct (String.prefix x "") eqn:E; [|discriminate].
    apply prefix_lower in E. cbn [lower] in E |- *. cbn [contains]. now rewrite E.
  - cbn [contains] in H. destruct (String.prefix x (String b s)) eqn:E.
    + apply prefix_lower in E. cbn [lower] in E |- *. cbn [contains]. now rewrite E.
    + cbn [lower contains].
      destruct (String.prefix (lower x) (String (lower_ascii b) (lower s)));
        [reflexivity | now apply IH].
Qed.

End PyStrProofs.

(** ** The retrying wrapper *)

Module RetryProofs.
Import Retry.

Section Props.

Context {T : Type}.
Variable max_retries : Z.
Variables base_delay max_delay exponential_base : Q.
Variable jitter : bool.
Variable func : nat -> outcome T.
Variable random : nat -> Q.
Variable sleep_max : Q.

Local Abbreviation compute_delay :=
  (compute_delay base_delay max_delay exponential_base jitter random).
Local Abbreviation sleep_error := (sleep_error sleep_max).
Local Abbreviation attempts :=
  (attempts max_retries base_delay max_delay exponential_base jitter func random
            sleep_max).
Local Abbreviation wrapper :=
  (wrapper max_retries base_delay max_delay exponential_base jitter func random
           sleep_max).
Local Abbreviation retryable_failure_at := (retryable_failure_at func).
Local Abbreviation delays_accepted :=
  (delays_accepted max_retries base_delay max_delay exponential_base jitter
                   random sleep_max).

Lemma compute_delay_world (a : Z) (w : World) :
  op_calls (snd (compute_delay a w)) = op_calls w /\
  sleeps (snd (compute_delay a w)) = sleeps w.
Proof. unfold Retry.compute_delay. destruct jitter; split; reflexivity. Qed.

(** One retried failure: the attempt is followed by exactly one sleep. *)
Lemma attempts_retry (a : Z) (rest : list Z) (last : option exn) (w : World) e :
  delays_accepted ->
  func (op_calls w) = Raises e -> non_retryable e = false ->
  0 <= a < max_retries ->
  exists w1,
    attempts (a :: rest) last w = attempts rest (Some e) w1 /\
    op_calls w1 = S (op_calls w) /\
    List.length (sleeps w1) = S (List.length (sleeps w)).
Proof.
  intros Hd Hf Hn Ha. cbn [Retry.attempts]. rewrite Hf, Hn.
  destruct (Z.ltb_spec a max_retries) as [_|]; [|lia].
  destruct (Hd a Ha) as [Hpow Hsleep]. rewrite Hpow.
  specialize (Hsleep (tick_op w)).
  destruct (compute_delay a (tick_op w)) as [delay w2] eqn:Ec.
  pose proof (compute_delay_world a (tick_op w)) as [Ho Hs].
  rewrite Ec in Ho, Hs. cbn [fst snd] in Ho, Hs, Hsleep. rewrite Hsleep.
  exists (sleep delay w2). split; [reflexivity|]. split.
  - cbn [op_calls sleep]. rewrite Ho. reflexivity.
  - cbn [sleeps sleep]. rewrite Hs, length_app. cbn [sleeps tick_op List.length]. lia.
Qed.

(** [k] retried failures followed by a success, anywhere in the range. *)
Lemma attempts_fail_then_succeed (k : nat) : forall (s len : nat) last w v,
  delays_accepted ->
  (k < len)%nat -> Z.of_nat (s + k) <= max_retries ->
  (forall i, (i < k)%nat -> retryable_failure_at (op_calls w + i)) ->
  func (op_calls w + k) = Returns v ->
  exists w',
    attempts (map Z.of_nat (seq s len)) last w = (Returned v, w') /\
    op_calls w' = (op_calls w + k + 1)%nat /\
    List.length (sleeps w') = (List.length (sleeps w) + k)%nat.
Proof.
  induction k as [|k IH]; intros s len last w v Hd Hk Hs Hf Hv.
  - destruct len as [|len]; [lia|]. cbn [seq map Retry.attempts].
    rewrite Nat.add_0_r in Hv. rewrite Hv.
    exists (tick_op w). cbn [op_calls sleeps tick_op]. repeat split; lia.
  - destruct len as [|len]; [lia|]. cbn [seq map].
    destruct (Hf 0%nat ltac:(lia)) as (e & He & Hn). rewrite Nat.add_0_r in He.
    destruct (attempts_retry (Z.of_nat s) (map Z.of_nat (seq (S s) len)) last w e)
      as (w1 & Hstep & Ho & Hsl); [assumption|assumption|assumption|lia|].
    rewrite Hstep.
    destruct (IH (S s) len (Some e) w1 v) as (w' & Hr & Ho' & Hsl').
    + assumption.
    + lia.
    + lia.
    + intros i Hi. rewrite Ho. replace (S (op_calls w) + i)%nat
        with (op_calls w + S i)%nat by lia. apply Hf. lia.
    + rewrite Ho. replace (S (op_calls w) + k)%nat
        with (op_calls w + S k)%nat by lia. exact Hv.
    + exists w'. split; [exact Hr|]. split; lia.
Qed.

(** Attempts that all fail with retried errors, up to the end of the range:
    every attempt but the last is followed by a sleep, and the error of the
    last attempt is raised. *)
Lemma attempts_all_fail (len : nat) : forall (s : nat) last w,
  delays_accepted ->
  Z.of_nat (s + S len) = max_retries + 1 ->
  (forall i, (i <= len)%nat -> retryable_failure_at (op_calls w + i)) ->
  exists e w',
    attempts (map Z.of_nat (seq s (S len))) last w = (Raised e, w') /\
    func (op_calls w + len) = Raises e /\
    op_calls w' = (op_calls w + S len)%nat /\
    List.length (sleeps w') = (List.length (sleeps w) + len)%nat.
Proof.
  induction len as [|len IH]; intros s last w Hd Hs Hf.
  - destruct (Hf 0%nat ltac:(lia)) as (e & He & Hn).
    exists e, (tick_op w). cbn [seq map Retry.attempts].
    rewrite Nat.add_0_r in He. rewrite He, Hn.
    destruct (Z.ltb_spec (Z.of_nat s) max_retries) as [Hlt|_]; [lia|].
    rewrite Nat.add_0_r. cbn [op_calls sleeps tick_op].
    repeat split; try assumption; lia.
  - destruct (Hf 0%nat ltac:(lia)) as (e & He & Hn). rewrite Nat.add_0_r in He.
    change (seq s (S (S len))) with (s :: seq (S s) (S len)). cbn [map].
    destruct (attempts_retry (Z.of_nat s) (map Z.of_nat (seq (S s) (S len))) last w e)
      as (w1 & Hstep & Ho & Hsl); [assumption|assumption|assumption|lia|].
    rewrite Hstep.
    destruct (IH (S s) (Some e) w1) as (e' & w' & Hr & He' & Ho' & Hsl').
    + assumption.
    + lia.
    + intros i Hi. rewrite Ho. replace (S (op_calls w) + i)%nat
        with (op_calls w + S i)%nat by lia. apply Hf. lia.
    + exists e', w'. split; [exact Hr|]. split.
      * rewrite Ho in He'. replace (op_calls w + S len)%nat
          with (S (op_calls w) + len)%nat by lia. exact He'.
      * split; lia.
Qed.

(** Conditions on the policy under which every delay is accepted:
    non-negative delays and base, a cap that [time.sleep] takes even after
    jitter, draws in [0, 1), and powers within the float range. *)
Lemma delays_accepted_sufficient :
  (0 <= base_delay)%Q -> (0 <= exponential_base)%Q -> (0 <= max_delay)%Q ->
  ((3 # 2) * max_delay <= sleep_max)%Q ->
  (forall i, (0 <= random i)%Q /\ (random i < 1)%Q) ->
  (forall a, 0 <= a < max_retries ->
     float_overflows (exponential_base ^ a) = false) ->
  delays_accepted.
Proof.
  intros Hb He Hm Hs Hr Hp a Ha. split; [now apply Hp|]. intros w.
  set (d := Qmin (base_delay * exponential_base ^ a) max_delay).
  assert (Hd0 : (0 <= d)%Q).
  { apply Q.min_glb; [|assumption].
    apply Qmult_le_0_compat; [assumption | now apply Qpower_0_le]. }
  assert (Hd1 : (d <= max_delay)%Q) by apply Q.le_min_r.
  destruct (Hr (rand_draws w)) as [Hr0 Hr1].
  assert (Hdelay : (0 <= fst (compute_delay a w))%Q
                   /\ (fst (compute_delay a w) <= sleep_max)%Q).
  { unfold Retry.compute_delay. fold d. destruct jitter; cbn [fst]; split; nra. }
  destruct Hdelay as [H0 H1]. unfold Retry.sleep_error.
  apply Qgtb_false in H0. apply Qgtb_false in H1. now rewrite H0, H1.
Qed.

(** C3, amended.  With [max_retries >= 0] and a policy whose delays the
    handler can compute and sleep (the power stays in the float range and
    [time.sleep] accepts every delay): if the operation fails with a retried
    error on its first [k] attempts, [k < max_retries + 1], and succeeds on
    attempt [k], the wrapper returns the success value after [k + 1]
    invocations and exactly [k] waits; if it fails with a retried error on
    every attempt, the wrapper invokes it [max_retries + 1] times, waits
    exactly [max_retries] times and raises the error of the last attempt. *)
Theorem retry_waits (w : World) :
  0 <= max_retries ->
  delays_accepted ->
  (forall (k : nat) (v : T),
     Z.of_nat k < max_retries + 1 ->
     (forall i, (i < k)%nat -> retryable_failure_at (op_calls w + i)) ->
     func (op_calls w + k) = Returns v ->
     exists w',
       wrapper w = (Returned v, w') /\
       op_calls w' = (op_calls w + k + 1)%nat /\
       List.length (sleeps w') = (List.length (sleeps w) + k)%nat)
  /\
  ((forall i, (i <= Z.to_nat max_retries)%nat ->
      retryable_failure_at (op_calls w + i)) ->
   exists e w',
     wrapper w = (Raised e, w') /\
     func (op_calls w + Z.to_nat max_retries) = Raises e /\
     op_calls w' = (op_calls w + Z.to_nat max_retries + 1)%nat /\
     List.length (sleeps w') = (List.length (sleeps w) + Z.to_nat max_retries)%nat).
Proof.
  intros Hm Hd. split.
  - intros k v Hk Hf Hv. unfold Retry.wrapper, range.
    apply attempts_fail_then_succeed; try assumption; lia.
  - intros Hf. unfold Retry.wrapper, range.
    replace (Z.to_nat (max_retries + 1)) with (S (Z.to_nat max_retries)) by lia.
    destruct (attempts_all_fail (Z.to_nat max_retries) 0%nat None w)
      as (e & w' & Hr & He & Ho & Hs); [assumption|lia|assumption|].
    exists e, w'. repeat split; try assumption; lia.
Qed.

(** C4.  With [max_retries >= 0] (so that there is a first attempt): if the
    first attempt fails with an error classified as non-retryable, that error
    is raised at once; the operation has been invoked exactly once and
    nothing was slept. *)
Theorem non_retryable_raised_at_once (w : World) (e : exn) :
  0 <= max_retries ->
  func (op_calls w) = Raises e -> non_retryable e = true ->
  exists w',
    wrapper w = (Raised e, w') /\
    op_calls w' = S (op_calls w) /\
    sleeps w' = sleeps w /\
    rand_draws w' = rand_draws w.
Proof.
  intros Hm Hf Hn. exists (tick_op w). unfold Retry.wrapper, range.
  replace (Z.to_nat (max_retries + 1)) with (S (Z.to_nat max_retries)) by lia.
  cbn [seq map Retry.attempts]. rewrite Hf, Hn. repeat split.
Qed.

(** Outside the domain of C3 and C4: a negative [max_retries] leaves the range
    empty, the callable is never invoked and [raise last_exception] raises
    on [None]. *)
Lemma negative_max_retries (w : World) :
  max_retries < 0 -> wrapper w = (RaisedNone, w).
Proof.
  intros Hm. unfold Retry.wrapper, range.
  replace (Z.to_nat (max_retries + 1)) with 0%nat by lia. reflexivity.
Qed.

Lemma compute_delay_no_jitter (a : Z) (w : World) :
  jitter = false ->
  compute_delay a w = (Qmin (base_delay * exponential_base ^ a) max_delay, w).
Proof. intros Hj. unfold Retry.compute_delay. now rewrite Hj. Qed.

(** Without jitter, the sleeps requested while every attempt fails are the
    backoff delays of the attempts, in order. *)
Lemma attempts_all_fail_sleeps (len : nat) : forall (s : nat) last w,
  delays_accepted ->
  jitter = false ->
  Z.of_nat (s + S len) = max_retries + 1 ->
  (forall i, (i <= len)%nat -> retryable_failure_at (op_calls w + i)) ->
  sleeps (snd (attempts (map Z.of_nat (seq s (S len))) last w)) =
  sleeps w ++
    map (fun i => Qmin (base_delay * exponential_base ^ i) max_delay)
        (map Z.of_nat (seq s len)).
Proof.
  induction len as [|len IH]; intros s last w Hd Hj Hs Hf.
  - destruct (Hf 0%nat ltac:(lia)) as (e & He & Hn).
    rewrite Nat.add_0_r in He. cbn [seq map Retry.attempts]. rewrite He, Hn.
    destruct (Z.ltb_spec (Z.of_nat s) max_retries) as [Hlt|_]; [lia|].
    cbn [snd sleeps tick_op]. now rewrite app_nil_r.
  - destruct (Hf 0%nat ltac:(lia)) as (e & He & Hn). rewrite Nat.add_0_r in He.
    change (seq s (S (S len))) with (s :: seq (S s) (S len)).
    change (seq s (S len)) with (s :: seq (S s) len).
    cbn [map Retry.attempts]. rewrite He, Hn.
    destruct (Z.ltb_spec (Z.of_nat s) max_retries) as [_|]; [|lia].
    destruct (Hd (Z.of_nat s) ltac:(lia)) as [Hpow Hsleep]. rewrite Hpow.
    specialize (Hsleep (tick_op w)).
    rewrite compute_delay_no_jitter in Hsleep |- * by assumption.
    cbn [fst] in Hsleep. rewrite Hsleep.
    rewrite IH.
    + cbn [sleeps sleep tick_op]. now rewrite <- app_assoc.
    + assumption.
    + assumption.
    + lia.
    + intros i Hi. cbn [op_calls sleep tick_op].
      replace (S (op_calls w) + i)%nat with (op_calls w + S i)%nat by lia.
      apply Hf. lia.
Qed.

(** C5, amended.  With jitter disabled the delay computed for attempt [i] is
    [min(base_delay * exponential_base^i, max_delay)] and no random number is
    drawn; it is non-decreasing in [i] when [base_delay >= 0] and
    [exponential_base >= 1]. *)
Theorem backoff_delay_no_jitter (i : Z) (w : World) :
  jitter = false ->
  compute_delay i w = (Qmin (base_delay * exponential_base ^ i) max_delay, w) /\
  ((0 <= base_delay)%Q -> (1 <= exponential_base)%Q ->
   (fst (compute_delay i w) <= fst (compute_delay (i + 1) w))%Q).
Proof.
  intros Hj. rewrite !compute_delay_no_jitter by assumption.
  split; [reflexivity|].
  intros Hb He. cbn [fst].
  apply Q.min_le_compat_r.
  rewrite (Qmult_comm base_delay (exponential_base ^ i)).
  rewrite (Qmult_comm base_delay (exponential_base ^ (i + 1))).
  apply Qmult_le_compat_r; [|assumption].
  apply Qpower_le_compat_l; [lia|assumption].
Qed.

(** *** Further properties of the retrying wrapper *)

(** What a run of the loop over the rest of the range does, whatever the
    callable does: [c] invocations, [c - 1] sleeps, and a result that is the
    outcome of the last invocation. *)
Lemma attempts_shape (len : nat) : forall (s : nat) last w,
  Z.of_nat (s + len) = max_retries + 1 ->
  exists c : nat,
    (c <= len)%nat /\
    op_calls (snd (attempts (map Z.of_nat (seq s len)) last w))
      = (op_calls w + c)%nat /\
    (c = 0%nat ->
       len = 0%nat /\
       attempts (map Z.of_nat (seq s len)) last w
         = (match last with Some e => Raised e | None => RaisedNone end, w)) /\
    ((0 < c)%nat ->
       List.length (sleeps (snd (attempts (map Z.of_nat (seq s len)) last w)))
         = (List.length (sleeps w) + c - 1)%nat /\
       match fst (attempts (map Z.of_nat (seq s len)) last w) with
       | Returned v => func (op_calls w + c - 1) = Returns v
       | Raised e => func (op_calls w + c - 1) = Raises e
       | RaisedNone => False
       | HandlerRaised _ => retryable_failure_at (op_calls w + c - 1)
       end).
Proof.
  induction len as [|len IH]; intros s last w Hs.
  - exists 0%nat. cbn [seq map Retry.attempts].
    repeat split; try lia; destruct last; cbn [snd op_calls]; try reflexivity; lia.
  - cbn [seq map Retry.attempts].
    destruct (func (op_calls w)) as [v|e] eqn:Ef.
    + exists 1%nat. cbn [fst snd op_calls sleeps tick_op].
      repeat split; try lia.
      replace (op_calls w + 1 - 1)%nat with (op_calls w) by lia. exact Ef.
    + destruct (non_retryable e) eqn:En.
      * exists 1%nat. cbn [fst snd op_calls sleeps tick_op].
        repeat split; try lia.
        replace (op_calls w + 1 - 1)%nat with (op_calls w) by lia. exact Ef.
      * assert (Hret : retryable_failure_at (op_calls w + 1 - 1)).
        { replace (op_calls w + 1 - 1)%nat with (op_calls w) by lia.
          now exists e. }
        destruct (Z.ltb_spec (Z.of_nat s) max_retries) as [Hlt|Hge].
        -- destruct (float_overflows (exponential_base ^ Z.of_nat s)).
           { exists 1%nat. cbn [fst snd op_calls sleeps tick_op].
             repeat split; try lia. exact Hret. }
           destruct (compute_delay (Z.of_nat s) (tick_op w)) as [delay w2] eqn:Ec.
           pose proof (compute_delay_world (Z.of_nat s) (tick_op w)) as [Ho Hsl].
           rewrite Ec in Ho, Hsl. cbn [snd op_calls sleeps tick_op] in Ho, Hsl.
           destruct (sleep_error delay) as [err|].
           { exists 1%nat. cbn [fst snd]. rewrite Ho, Hsl.
             repeat split; try lia. exact Hret. }
           destruct (IH (S s) (Some e) (sleep delay w2) ltac:(lia))
             as (c & Hc & Hoc & H0 & Hpos).
           assert (Hcpos : (0 < c)%nat).
           { destruct c; [|lia]. destruct (H0 eq_refl) as [Hl _]. lia. }
           destruct (Hpos Hcpos) as [Hsleeps Hres].
           exists (S c). split; [lia|].
           cbn [op_calls sleeps sleep] in Hoc, Hsleeps, Hres.
           rewrite length_app in Hsleeps. cbn [List.length] in Hsleeps.
           rewrite Ho in Hoc, Hres. rewrite Hsl in Hsleeps.
           split; [rewrite Hoc; lia|]. split; [lia|]. intros _.
           split; [rewrite Hsleeps; lia|].
           replace (op_calls w + S c - 1)%nat with (S (op_calls w) + c - 1)%nat by lia.
           exact Hres.
        -- assert (Hlen : len = 0%nat) by lia. subst len.
           exists 1%nat. cbn [seq map Retry.attempts fst snd op_calls sleeps tick_op].
           repeat split; try lia.
           replace (op_calls w + 1 - 1)%nat with (op_calls w) by lia. exact Ef.
Qed.

(** Whatever the callable does, a call of the wrapper with
    [max_retries >= 0] invokes it at least once and at most
    [max_retries + 1] times, and sleeps exactly once between two consecutive
    invocations: one sleep less than invocations. *)
Theorem retry_invocation_bounds (w : World) :
  0 <= max_retries ->
  let w' := snd (wrapper w) in
  (op_calls w < op_calls w')%nat /\
  (op_calls w' <= op_calls w + Z.to_nat max_retries + 1)%nat /\
  (List.length (sleeps w') + 1
     = List.length (sleeps w) + (op_calls w' - op_calls w))%nat.
Proof.
  intros Hm. cbv zeta. unfold Retry.wrapper, range.
  destruct (attempts_shape (Z.to_nat (max_retries + 1)) 0%nat None w ltac:(lia))
    as (c & Hc & Hoc & H0 & Hpos).
  assert (Hcpos : (0 < c)%nat).
  { destruct c; [|lia]. destruct (H0 eq_refl) as [Hl _]. lia. }
  destruct (Hpos Hcpos) as [Hsl _].
  rewrite Hoc, Hsl. lia.
Qed.

(** With [max_retries >= 0], what the wrapper gives back comes from the
    last invocation of the callable: the value it returned when the wrapper
    returns, the exception it raised when the wrapper raises an exception of
    the callable.  The only other way out is an exception of the handler
    itself (the power out of the float range, or a delay that [time.sleep]
    rejects), and then the last invocation had failed with a retried error.
    The wrapper never ends in [raise None]. *)
Theorem retry_result_is_last_outcome (w : World) :
  0 <= max_retries ->
  let '(r, w') := wrapper w in
  match r with
  | Returned v => func (op_calls w' - 1) = Returns v
  | Raised e => func (op_calls w' - 1) = Raises e
  | RaisedNone => False
  | HandlerRaised _ => retryable_failure_at (op_calls w' - 1)
  end.
Proof.
  intros Hm. unfold Retry.wrapper, range.
  destruct (attempts_shape (Z.to_nat (max_retries + 1)) 0%nat None w ltac:(lia))
    as (c & Hc & Hoc & H0 & Hpos).
  assert (Hcpos : (0 < c)%nat).
  { destruct c; [|lia]. destruct (H0 eq_refl) as [Hl _]. lia. }
  destruct (Hpos Hcpos) as [_ Hres].
  destruct (attempts (map Z.of_nat (seq 0 (Z.to_nat (max_retries + 1)))) None w)
    as [r w'].
  cbn [fst snd] in *. rewrite Hoc.
  replace (op_calls w + c - 1)%nat with (op_calls w + c - 1)%nat by lia.
  exact Hres.
Qed.

(** [k] retried failures followed by a non-retryable one, anywhere in the
    range. *)
Lemma attempts_fail_then_non_retryable (k : nat) : forall (s len : nat) last w e,
  delays_accepted ->
  (k < len)%nat -> Z.of_nat (s + k) <= max_retries ->
  (forall i, (i < k)%nat -> retryable_failure_at (op_calls w + i)) ->
  func (op_calls w + k) = Raises e -> non_retryable e = true ->
  exists w',
    attempts (map Z.of_nat (seq s len)) last w = (Raised e, w') /\
    op_calls w' = (op_calls w + k + 1)%nat /\
    List.length (sleeps w') = (List.length (sleeps w) + k)%nat.
Proof.
  induction k as [|k IH]; intros s len last w e Hd Hk Hs Hf He Hn.
  - destruct len as [|len]; [lia|]. cbn [seq map Retry.attempts].
    rewrite Nat.add_0_r in He. rewrite He, Hn.
    exists (tick_op w). cbn [op_calls sleeps tick_op]. repeat split; lia.
  - destruct len as [|len]; [lia|]. cbn [seq map].
    destruct (Hf 0%nat ltac:(lia)) as (e0 & He0 & Hn0). rewrite Nat.add_0_r in He0.
    destruct (attempts_retry (Z.of_nat s) (map Z.of_nat (seq (S s) len)) last w e0)
      as (w1 & Hstep & Ho & Hsl); [assumption|assumption|assumption|lia|].
    rewrite Hstep.
    destruct (IH (S s) len (Some e0) w1 e) as (w' & Hr & Ho' & Hsl').
    + assumption.
    + lia.
    + lia.
    + intros i Hi. rewrite Ho. replace (S (op_calls w) + i)%nat
        with (op_calls w + S i)%nat by lia. apply Hf. lia.
    + rewrite Ho. replace (S (op_calls w) + k)%nat
        with (op_calls w + S k)%nat by lia. exact He.
    + exact Hn.
    + exists w'. split; [exact Hr|]. split; lia.
Qed.

(** A non-retryable error stops the retries at whatever attempt it occurs:
    with a policy whose delays the handler can compute and sleep, after
    [k <= max_retries] retried failures a non-retryable failure is raised at
    once, after [k + 1] invocations and [k] sleeps. *)
Theorem non_retryable_stops_retries (k : nat) (w : World) (e : exn) :
  delays_accepted ->
  Z.of_nat k <= max_retries ->
  (forall i, (i < k)%nat -> retryable_failure_at (op_calls w + i)) ->
  func (op_calls w + k) = Raises e -> non_retryable e = true ->
  exists w',
    wrapper w = (Raised e, w') /\
    op_calls w' = (op_calls w + k + 1)%nat /\
    List.length (sleeps w') = (List.length (sleeps w) + k)%nat.
Proof.
  intros Hd Hk Hf He Hn. unfold Retry.wrapper, range.
  apply attempts_fail_then_non_retryable; try assumption; lia.
Qed.

(** With jitter, one random number is drawn per delay and, for a draw in
    [0, 1) and a non-negative capped backoff [d], the delay lies between
    [d / 2] and [3 d / 2]: the cap [max_delay] is applied before the jitter,
    so the delay slept can exceed it by up to one half. *)
Theorem jitter_delay_bounds (i : Z) (w : World) :
  jitter = true ->
  (0 <= random (rand_draws w))%Q -> (random (rand_draws w) < 1)%Q ->
  let d := Qmin (base_delay * exponential_base ^ i) max_delay in
  (0 <= d)%Q ->
  snd (compute_delay i w) = tick_rand w /\
  (d * (1 # 2) <= fst (compute_delay i w))%Q /\
  (fst (compute_delay i w) <= d * (3 # 2))%Q.
Proof.
  intros Hj Hr0 Hr1 d Hd. unfold Retry.compute_delay. rewrite Hj.
  cbn [fst snd]. fold d. split; [reflexivity|]. split; nra.
Qed.

Lemma attempts_sleeps_capped (rng : list Z) : forall last w,
  jitter = false ->
  exists l,
    sleeps (snd (attempts rng last w)) = sleeps w ++ l /\
    Forall (fun d => (d <= max_delay)%Q) l.
Proof.
  induction rng as [|a rng IH]; intros last w Hj.
  - exists []. cbn [Retry.attempts]. destruct last; cbn [snd];
      now rewrite app_nil_r.
  - cbn [Retry.attempts]. destruct (func (op_calls w)) as [v|e].
    + exists []. cbn [snd sleeps tick_op]. now rewrite app_nil_r.
    + destruct (non_retryable e).
      * exists []. cbn [snd sleeps tick_op]. now rewrite app_nil_r.
      * destruct (a <? max_retries).
        -- destruct (float_overflows (exponential_base ^ a)).
           { exists []. cbn [snd sleeps tick_op]. now rewrite app_nil_r. }
           rewrite compute_delay_no_jitter by assumption.
           destruct (sleep_error (Qmin (base_delay * exponential_base ^ a) max_delay)).
           { exists []. cbn [snd sleeps tick_op]. now rewrite app_nil_r. }
           destruct (IH (Some e)
                       (sleep (Qmin (base_delay * exponential_base ^ a) max_delay)
                              (tick_op w)) Hj) as (l & Hl & HF).
           exists (Qmin (base_delay * exponential_base ^ a) max_delay :: l).
           rewrite Hl. cbn [sleeps sleep tick_op]. rewrite <- app_assoc.
           split; [reflexivity|]. constructor; [apply Q.le_min_r | exact HF].
        -- destruct (IH (Some e) (tick_op w) Hj) as (l & Hl & HF).
           exists l. rewrite Hl. cbn [sleeps tick_op]. now split.
Qed.

(** Without jitter no sleep requested by the wrapper is longer than
    [max_delay], whatever the callable does. *)
Theorem sleeps_capped_without_jitter (w : World) :
  jitter = false ->
  exists l,
    sleeps (snd (wrapper w)) = sleeps w ++ l /\
    Forall (fun d => (d <= max_delay)%Q) l.
Proof. intros Hj. unfold Retry.wrapper. now apply attempts_sleeps_capped. Qed.

End Props.

(** The classification is by text and blind to case: an exception whose
    message contains, in any mix of cases, one of the markers
    'invalid api key', '401', '403', '404' is never retried. *)
Theorem non_retryable_any_case (e : exn) (needle : string) :
  PyStr.contains needle (exn_str e) = true ->
  In (PyStr.lower needle) ["invalid api key"; "401"; "403"; "404"]%string ->
  non_retryable e = true.
Proof.
  intros Hc Hin. unfold non_retryable.
  apply existsb_exists. exists (PyStr.lower needle). split; [exact Hin|].
  now apply PyStrProofs.contains_lower.
Qed.

(** C3 as stated fails for a policy with a negative delay: with
    max_retries 2 and base_delay -1, an operation that fails once with a
    retried error and would succeed on its second attempt is invoked once;
    [time.sleep(-1)] raises ValueError, nothing is slept and the success
    value is never returned. *)
Lemma negative_delay_aborts_retry :
  let func := fun i : nat =>
    match i with
    | O => Raises (mk_exn "Exception" "503 Service unavailable")
    | _ => Returns 7
    end in
  Z.of_nat 1 < 2 + 1 /\
  retryable_failure_at func 0 /\
  func 1%nat = Returns 7 /\
  wrapper 2 (-1) 60 2 false func (fun _ => 0%Q) 9223372036 world0
    = (HandlerRaised SleepValueError, mk_world 1 0 0 []) /\
  wrapper 2 (-1) 60 2 false func (fun _ => 0%Q) 9223372036 world0
    <> (Returned 7, mk_world 2 0 0 [(-1)%Q]).
Proof.
  cbv zeta.
  split; [simpl; lia|].
  split; [eexists; split; reflexivity|].
  split; [reflexivity|].
  split; [reflexivity|].
  intros H. vm_compute in H. discriminate.
Qed.

(** C5 as stated fails for a base below 1: with base_delay 1, exponential_base
    1/2 and max_delay 60 the delay of attempt 0 is 1 and that of attempt 1 is
    1/2. *)
Lemma backoff_shrinks_for_base_below_one :
  let delay := fun i : Z =>
    fst (compute_delay 1 60 (1 # 2) false (fun _ => 0%Q) i world0) in
  (delay 0%Z == 1)%Q /\ (delay 1%Z == 1 # 2)%Q /\ ~ (delay 0%Z <= delay 1%Z)%Q.
Proof.
  cbv zeta. repeat split.
  vm_compute. intros H. apply H. reflexivity.
Qed.

Lemma backoff_delay_no_jitter_witness :
  compute_delay 1 60 2 false (fun _ => 0%Q) 3 world0
    = (Qmin (1 * 2 ^ 3) 60, world0) /\
  ((0 <= 1)%Q -> (1 <= 2)%Q ->
   (fst (compute_delay 1 60 2 false (fun _ => 0%Q) 3 world0)
    <= fst (compute_delay 1 60 2 false (fun _ => 0%Q) (3 + 1) world0))%Q).
Proof.
  apply (backoff_delay_no_jitter 1 60 2 false (fun _ => 0%Q) 3 world0).
  reflexivity.
Defined.

Lemma retry_waits_witness :
  let e := mk_exn "Exception" "503 Service unavailable" in
  let func := fun i : nat =>
    match i with
    | O => Raises e
    | _ => Returns 7
    end in
  let failing := fun _ : nat => Raises (T:=Z) e in
  (exists w',
     wrapper 2 1 60 2 true func (fun _ => 0%Q) 9223372036 world0
       = (Returned 7, w') /\
     op_calls w' = (op_calls world0 + 1 + 1)%nat /\
     List.length (sleeps w') = (List.length (sleeps world0) + 1)%nat)
  /\
  (exists e' w',
     wrapper 2 1 60 2 true failing (fun _ => 0%Q) 9223372036 world0
       = (Raised e', w') /\
     failing (op_calls world0 + Z.to_nat 2)%nat = Raises e' /\
     op_calls w' = (op_calls world0 + Z.to_nat 2 + 1)%nat /\
     List.length (sleeps w')
       = (List.length (sleeps world0) + Z.to_nat 2)%nat).
Proof.
  intros e func failing.
  assert (Hd : delays_accepted 2 1 60 2 true (fun _ => 0%Q) 9223372036).
  { intros a Ha. assert (Hc : a = 0 \/ a = 1) by lia.
    destruct Hc as [->| ->]; (split; [reflexivity | intros w; reflexivity]). }
  split.
  - apply (proj1 (retry_waits 2 1 60 2 true func (fun _ => 0%Q) 9223372036 world0
                    ltac:(lia) Hd) 1%nat 7).
    + simpl. lia.
    + intros i Hi. exists e. destruct i; [split; reflexivity | lia].
    + reflexivity.
  - apply (proj2 (retry_waits 2 1 60 2 true failing (fun _ => 0%Q) 9223372036
                    world0 ltac:(lia) Hd)).
    intros i _. exists e. split; reflexivity.
Defined.

Lemma non_retryable_raised_at_once_witness :
  let e := mk_exn "Exception" "401 Invalid API key" in
  let func := fun _ : nat => Raises (T:=Z) e in
  exists w',
    wrapper 3 1 60 2 true func (fun _ => 0%Q) 9223372036 world0
      = (Raised e, w') /\
    op_calls w' = S (op_calls world0) /\
    sleeps w' = sleeps world0 /\
    rand_draws w' = rand_draws world0.
Proof.
  intros e func.
  apply (non_retryable_raised_at_once 3 1 60 2 true func (fun _ => 0%Q)
           9223372036 world0 e).
  - lia.
  - reflexivity.
  - reflexivity.
Defined.

(** The two branches of C3 on concrete runs: one failure then a success, and
    three failures with [max_retries = 2]. *)
Example retry_once_then_success :
  let func := fun i : nat =>
    match i with
    | O => Raises (mk_exn "Exception" "503 Service unavailable")
    | _ => Returns 7
    end in
  wrapper 2 1 60 2 false func (fun _ => 0%Q) 9223372036 world0
    = (Returned 7, mk_world 2 0 0 [Qmin (1 * 2 ^ 0) 60]).
Proof. reflexivity. Qed.

Example retry_exhausted :
  let e := mk_exn "Exception" "503 Service unavailable" in
  let func := fun _ : nat => Raises (T:=Z) e in
  wrapper 2 1 60 2 false func (fun _ => 0%Q) 9223372036 world0
    = (Raised e, mk_world 3 0 0 [Qmin (1 * 2 ^ 0) 60; Qmin (1 * 2 ^ 1) 60]).
Proof. reflexivity. Qed.

Lemma retry_invocation_bounds_witness :
  let func := fun _ : nat => Raises (T:=Z) (mk_exn "Exception" "503") in
  let w' := snd (wrapper 2 1 60 2 true func (fun _ => 0%Q) 9223372036 world0) in
  (op_calls world0 < op_calls w')%nat /\
  (op_calls w' <= op_calls world0 + Z.to_nat 2 + 1)%nat /\
  (List.length (sleeps w') + 1
     = List.length (sleeps world0) + (op_calls w' - op_calls world0))%nat.
Proof.
  intros func.
  apply (retry_invocation_bounds 2 1 60 2 true func (fun _ => 0%Q) 9223372036
           world0).
  lia.
Defined.

Lemma retry_result_is_last_outcome_witness :
  let func := fun i : nat =>
    match i with
    | O => Raises (mk_exn "Exception" "503")
    | _ => Returns 7
    end in
  let '(r, w') := wrapper 2 1 60 2 true func (fun _ => 0%Q) 9223372036 world0 in
  match r with
  | Returned v => func (op_calls w' - 1)%nat = Returns v
  | Raised e => func (op_calls w' - 1)%nat = Raises e
  | RaisedNone => False
  | HandlerRaised _ => retryable_failure_at func (op_calls w' - 1)
  end.
Proof.
  intros func.
  apply (retry_result_is_last_outcome 2 1 60 2 true func (fun _ => 0%Q)
           9223372036 world0).
  lia.
Defined.

Lemma non_retryable_stops_retries_witness :
  let e := mk_exn "Exception" "403 Permission denied" in
  let func := fun i : nat =>
    match i with
    | O => Raises (T:=Z) (mk_exn "Exception" "503")
    | _ => Raises e
    end in
  exists w',
    wrapper 3 1 60 2 true func (fun _ => 0%Q) 9223372036 world0
      = (Raised e, w') /\
    op_calls w' = (op_calls world0 + 1 + 1)%nat /\
    List.length (sleeps w') = (List.length (sleeps world0) + 1)%nat.
Proof.
  intros e func.
  apply (non_retryable_stops_retries 3 1 60 2 true func (fun _ => 0%Q)
           9223372036 1 world0 e).
  - intros a Ha. assert (Hc : a = 0 \/ a = 1 \/ a = 2) by lia.
    destruct Hc as [->|[->| ->]]; (split; [reflexivity | intros w; reflexivity]).
  - lia.
  - intros i Hi. exists (mk_exn "Exception" "503").
    destruct i; [split; reflexivity | lia].
  - reflexivity.
  - reflexivity.
Defined.

Lemma jitter_delay_bounds_witness :
  let random := fun _ : nat => (1 # 4)%Q in
  let d := Qmin (1 * 2 ^ 3) 60 in
  snd (compute_delay 1 60 2 true random 3 world0) = tick_rand world0 /\
  (d * (1 # 2) <= fst (compute_delay 1 60 2 true random 3 world0))%Q /\
  (fst (compute_delay 1 60 2 true random 3 world0) <= d * (3 # 2))%Q.
Proof.
  intros random d.
  apply (jitter_delay_bounds 1 60 2 true random 3 world0).
  - reflexivity.
  - vm_compute. discriminate.
  - reflexivity.
  - vm_compute. discriminate.
Defined.

Lemma sleeps_capped_without_jitter_witness :
  let func := fun _ : nat => Raises (T:=Z) (mk_exn "Exception" "503") in
  exists l,
    sleeps (snd (wrapper 8 1 60 2 false func (fun _ => 0%Q) 9223372036 world0))
      = sleeps world0 ++ l /\
    Forall (fun d => (d <= 60)%Q) l.
Proof.
  intros func.
  apply (sleeps_capped_without_jitter 8 1 60 2 false func (fun _ => 0%Q)
           9223372036 world0).
  reflexivity.
Defined.

Lemma non_retryable_any_case_witness :
  non_retryable (mk_exn "ValueError" "Request failed: INVALID Api Key supplied")
    = true.
Proof.
  apply (non_retryable_any_case
           (mk_exn "ValueError" "Request failed: INVALID Api Key supplied")
           "INVALID Api Key").
  - reflexivity.
  - left. reflexivity.
Defined.

End RetryProofs.

(** ** Safe generation *)

Module SafeProofs.
Import Safe.

Local Open Scope string_scope.

(** C9, amended.  For every generation function and every non-empty fallback
    text, [safe_generate] returns a pair: the function's result and no error
    when it succeeds, the fallback text and the caught error when it fails. *)
Theorem safe_generate_pair {T : Type} (generate_func : unit -> outcome T)
    (fallback : string) (log_errors : bool) :
  fallback <> "" ->
  (forall r, generate_func tt = Returns r ->
     fst (safe_generate generate_func (Some fallback) log_errors)
       = (Some (Generated r), None)) /\
  (forall e, generate_func tt = Raises e ->
     fst (safe_generate generate_func (Some fallback) log_errors)
       = (Some (Text fallback), Some e)).
Proof.
  intros Hne. unfold safe_generate. split.
  - intros r Hr. now rewrite Hr.
  - intros e He. rewrite He.
    destruct fallback as [|c s]; [congruence|]. reflexivity.
Qed.

(** Without a usable fallback the first component is [None]. *)
Lemma safe_generate_no_fallback {T : Type} (generate_func : unit -> outcome T)
    (fallback : option string) (log_errors : bool) (e : exn) :
  truthy fallback = false -> generate_func tt = Raises e ->
  fst (safe_generate generate_func fallback log_errors) = (None, Some e).
Proof.
  intros Ht He. unfold safe_generate. rewrite He, Ht. reflexivity.
Qed.

(** C9 as stated fails for the empty string, which is not None: the failure
    yields [None], not the fallback. *)
Lemma safe_generate_empty_fallback_dropped :
  let e := mk_exn "Exception" "503 Service unavailable" in
  fst (safe_generate (T:=string) (fun _ => Raises e) (Some "") true)
    = (None, Some e)
  /\ fst (safe_generate (T:=string) (fun _ => Raises e) (Some "") true)
    <> (Some (Text ""), Some e).
Proof. cbv zeta. split; [reflexivity | discriminate]. Qed.

Lemma safe_generate_pair_witness :
  let e := mk_exn "Exception" "503 Service unavailable" in
  let f := fun _ : unit => Raises (T:=string) e in
  (forall r, f tt = Returns r ->
     fst (safe_generate f (Some "Unable to generate response at this time.") true)
       = (Some (Generated r), None)) /\
  (forall e', f tt = Raises e' ->
     fst (safe_generate f (Some "Unable to generate response at this time.") true)
       = (Some (Text "Unable to generate response at this time."), Some e')).
Proof.
  intros e f.
  apply (safe_generate_pair f "Unable to generate response at this time." true).
  discriminate.
Defined.

(** Whatever the fallback and the logging flag, the error component tells
    whether generation failed: it is [None] exactly when the function
    returned, and the raised exception otherwise.  After a failure the result
    component is [None] exactly when the fallback is None or empty, and
    something is logged only after a failure with [log_errors] set. *)
Theorem safe_generate_error_iff_failed {T : Type}
    (generate_func : unit -> outcome T) (fallback : option string)
    (log_errors : bool) :
  let '((result, error), logged) :=
    safe_generate generate_func fallback log_errors in
  (error = None <-> exists r, generate_func tt = Returns r) /\
  (forall e, error = Some e <-> generate_func tt = Raises e) /\
  (error <> None -> (result = None <-> truthy fallback = false)) /\
  (logged <> [] -> log_errors = true /\ error <> None).
Proof.
  unfold safe_generate. destruct (generate_func tt) as [r|e].
  - repeat split; intros; try discriminate; try congruence;
      try (eexists; reflexivity);
      try match goal with H : ?x <> ?x |- _ => now elim H end.
  - assert (Hl : (if log_errors then ["Generation failed: " ++ exn_str e] else [])
                   <> [] -> log_errors = true).
    { destruct log_errors; [reflexivity|]. intros H. now elim H. }
    destruct (truthy fallback) eqn:Et; [destruct fallback as [s|]; [|discriminate]|];
      repeat split; intros; try discriminate; try congruence; auto;
      try match goal with H : ex _ |- _ => destruct H; discriminate end.
Qed.

End SafeProofs.

(** ** Safety-block inspection *)

Module SafetyBlockProofs.
Import SafetyBlock.

Local Open Scope string_scope.

(** C8, amended.  For a response without request-level block indicator: if
    its first candidate has finish_reason "SAFETY" the inspector returns true
    with the reason "Content blocked. Safety ratings: " followed by the text
    of the candidate's safety ratings ("[]" when it has none); if it has no
    candidates list the inspector returns (false, None). *)
Theorem inspect_without_block_indicator (response : Response) :
  no_block_indicator response ->
  (forall candidate rest,
     candidates response = Some (candidate :: rest) ->
     finish_reason candidate = Some "SAFETY" ->
     handle_safety_block response
       = (true, Some ("Content blocked. Safety ratings: " ++ ratings_text candidate)))
  /\
  (candidates response = None -> handle_safety_block response = (false, None)).
Proof.
  intros Hno.
  assert (Hh : handle_safety_block response = check_candidates response).
  { unfold handle_safety_block, no_block_indicator in *.
    destruct (prompt_feedback response) as [fb|]; [|reflexivity].
    now rewrite Hno. }
  rewrite Hh. unfold check_candidates. split.
  - intros candidate rest Hc Hf. rewrite Hc, Hf. reflexivity.
  - intros Hc. now rewrite Hc.
Qed.

(** C8 as stated fails: a first candidate with finish_reason "SAFETY" and no
    safety ratings is reported blocked with a reason that does not contain
    "SAFETY". *)
Lemma safety_reason_without_SAFETY :
  let response :=
    mk_response None (Some [mk_candidate (Some "SAFETY") None]) in
  no_block_indicator response /\
  handle_safety_block response
    = (true, Some "Content blocked. Safety ratings: []") /\
  PyStr.contains "SAFETY" "Content blocked. Safety ratings: []" = false.
Proof. cbv zeta. repeat split. Qed.

Lemma inspect_without_block_indicator_witness :
  let response :=
    mk_response (Some (mk_feedback None))
      (Some [mk_candidate (Some "SAFETY") (Some "[HARM_CATEGORY_HARASSMENT: HIGH]")]) in
  (forall candidate rest,
     candidates response = Some (candidate :: rest) ->
     finish_reason candidate = Some "SAFETY" ->
     handle_safety_block response
       = (true, Some ("Content blocked. Safety ratings: " ++ ratings_text candidate)))
  /\
  (candidates response = None -> handle_safety_block response = (false, None)).
Proof.
  intros response.
  apply (inspect_without_block_indicator response).
  reflexivity.
Defined.

Lemma is_block_reason_spec (r : string) :
  is_block_reason r = true <-> r = "SAFETY" \/ r = "BLOCKED".
Proof.
  unfold is_block_reason. cbn [existsb]. rewrite !orb_true_iff, !String.eqb_eq.
  intuition discriminate.
Qed.

(** The inspector reports a block exactly when the response carries a
    request-level block reason or its first candidate has finish_reason
    SAFETY or BLOCKED; and it gives a reason exactly when it reports a
    block. *)
Theorem blocked_iff (response : Response) :
  (fst (handle_safety_block response) = true <->
     (exists feedback reason,
        prompt_feedback response = Some feedback /\
        block_reason feedback = Some reason)
     \/
     (exists candidate rest r,
        candidates response = Some (candidate :: rest) /\
        finish_reason candidate = Some r /\
        (r = "SAFETY" \/ r = "BLOCKED")))
  /\
  (fst (handle_safety_block response) = true <->
     snd (handle_safety_block response) <> None).
Proof.
  assert (Hc :
    (fst (check_candidates response) = true <->
       exists candidate rest r,
         candidates response = Some (candidate :: rest) /\
         finish_reason candidate = Some r /\ (r = "SAFETY" \/ r = "BLOCKED"))
    /\ (fst (check_candidates response) = true <->
          snd (check_candidates response) <> None)).
  { unfold check_candidates.
    destruct (candidates response) as [[|c rest]|].
    - split; split; try discriminate; try (intros H; now elim H).
      intros (c & rest & r & H & _). discriminate.
    - destruct (finish_reason c) as [r|] eqn:Ef.
      + destruct (is_block_reason r) eqn:Eb.
        * split; split; try reflexivity; try discriminate.
          intros _. exists c, rest, r. repeat split; try assumption.
          now apply is_block_reason_spec.
        * split; split; try discriminate; try (intros H; now elim H).
          intros (c' & rest' & r' & H & Hf & Hr). inversion H; subst.
          rewrite Ef in Hf. inversion Hf; subst.
          apply is_block_reason_spec in Hr. congruence.
      + split; split; try discriminate; try (intros H; now elim H).
        intros (c' & rest' & r' & H & Hf & _). inversion H; subst. congruence.
    - split; split; try discriminate; try (intros H; now elim H).
      intros (c & rest & r & H & _). discriminate. }
  destruct Hc as [Hc1 Hc2].
  unfold handle_safety_block.
  destruct (prompt_feedback response) as [fb|].
  - destruct (block_reason fb) as [reason|] eqn:Eb.
    + split; split; try reflexivity; try discriminate.
      intros _. left. now exists fb, reason.
    + split; [|exact Hc2]. rewrite Hc1. split; [intros H; now right|].
      intros [(fb' & reason & H & Hr)|H]; [|exact H].
      inversion H; subst. congruence.
  - split; [|exact Hc2]. rewrite Hc1. split; [intros H; now right|].
    intros [(fb' & reason & H & _)|H]; [discriminate|exact H].
Qed.

(** Only the first candidate is looked at: the candidates after it never
    change the verdict or the reason. *)
Theorem only_first_candidate_inspected (feedback : option Feedback)
    (candidate : Candidate) (rest : list Candidate) :
  handle_safety_block (mk_response feedback (Some (candidate :: rest)))
    = handle_safety_block (mk_response feedback (Some [candidate])).
Proof.
  unfold handle_safety_block, check_candidates. cbn [prompt_feedback candidates].
  reflexivity.
Qed.

End SafetyBlockProofs.

(** ** The cost tracker *)

Module CostProofs.
Import Cost Cost.CostTracker.

Local Open Scope string_scope.

(** The key chosen by [cost_estimate] is always a key of [pricing]. *)
Lemma getitem_model_key (model_lower : string) :
  getitem pricing
    match find_model_key (map fst pricing) model_lower with
    | Some key => key
    | None => "gemini-pro"
    end <> None.
Proof.
  cbn [pricing map fst find_model_key].
  repeat match goal with
         | |- context [if ?b then _ else _] => destruct b
         end; discriminate.
Qed.

Lemma round_half_even_comp (x y : Q) :
  (x == y)%Q -> round_half_even x = round_half_even y.
Proof.
  intros H. unfold round_half_even.
  rewrite (Qfloor_comp x y H).
  assert (Hc : ((x - inject_Z (Qfloor y) ?= 1 # 2) =
                (y - inject_Z (Qfloor y) ?= 1 # 2))%Q).
  { apply Qcompare_comp; [now rewrite H | reflexivity]. }
  now rewrite Hc.
Qed.

Lemma round_comp (x y : Q) (n : Z) : (x == y)%Q -> (round x n == round y n)%Q.
Proof.
  intros H. unfold round.
  rewrite (round_half_even_comp (x * 10 ^ n) (y * 10 ^ n)); [reflexivity|].
  now rewrite H.
Qed.

Lemma sum_prompt_app l u :
  sum_prompt (l ++ [u]) = sum_prompt l + TokenUsage.prompt_tokens u.
Proof. induction l as [|a l IH]; simpl; [lia | rewrite IH; lia]. Qed.

Lemma sum_completion_app l u :
  sum_completion (l ++ [u]) = sum_completion l + TokenUsage.completion_tokens u.
Proof. induction l as [|a l IH]; simpl; [lia | rewrite IH; lia]. Qed.

Lemma sum_cost_app l u :
  (sum_cost (l ++ [u]) == sum_cost l + TokenUsage.cost_estimate u)%Q.
Proof.
  induction l as [|a l IH]; simpl.
  - ring.
  - rewrite IH. ring.
Qed.

Lemma consistent_init : consistent init.
Proof. repeat split. Qed.

Lemma consistent_add_usage self now p c m :
  consistent self -> consistent (snd (add_usage self now p c m)).
Proof.
  intros (Hp & Hc & Hq). unfold consistent, add_usage.
  cbn [snd usage_history _total_prompt_tokens _total_completion_tokens _total_cost].
  rewrite sum_prompt_app, sum_completion_app, sum_cost_app.
  cbn [TokenUsage.prompt_tokens TokenUsage.completion_tokens].
  repeat split; [lia | lia | now rewrite Hq].
Qed.

Lemma consistent_apply self o : consistent self -> consistent (apply self o).
Proof.
  intros H. destruct o as [now p c m|now r m|]; cbn [apply].
  - now apply consistent_add_usage.
  - unfold add_from_response.
    destruct (usage_metadata r) as [md|]; [|exact H].
    destruct (prompt_token_count md) as [p|]; [|exact H].
    destruct (candidates_token_count md) as [c|]; [|exact H].
    pose proof (consistent_add_usage self now p c m H) as H'.
    destruct (add_usage self now p c m) as [u self']. exact H'.
  - apply consistent_init.
Qed.

Lemma consistent_fold ops : forall self,
  consistent self -> consistent (fold_left apply ops self).
Proof.
  induction ops as [|o ops IH]; intros self H; simpl; [exact H|].
  apply IH. now apply consistent_apply.
Qed.

Lemma consistent_run ops : consistent (run ops).
Proof. apply consistent_fold, consistent_init. Qed.



Lemma small_count_in_float_range (z : Z) :
  Z.abs z <= 10 ^ 300 -> float_overflows (inject_Z z / 1000) = false.
Proof.
  intros H. unfold float_overflows.
  destruct (Qle_bool _ _) eqn:E; [|reflexivity].
  apply Qle_bool_iff in E. exfalso.
  assert (Ha : (Qabs (inject_Z z / 1000) <= inject_Z (10 ^ 300))%Q).
  { apply Qabs_Qle_condition.
    assert (Hz : - 10 ^ 300 <= z <= 10 ^ 300) by lia.
    unfold Qle, Qdiv, Qmult, Qinv, Qopp, inject_Z. cbn [Qnum Qden].
    split; lia. }
  pose proof (Qle_trans _ _ _ E Ha) as Hc.
  revert Hc. clear. unfold Qle, inject_Z. cbn [Qnum Qden].
  vm_compute. intros Hc. apply Hc. reflexivity.
Qed.

(** When the estimate does not overflow, the call is the returning
    [add_usage]. *)
Lemma add_usage_call_returns (self : t) (now : Q) (p c : Z) (model : string) :
  TokenUsage.cost_estimate_overflows (TokenUsage.mk p c (p + c) model now) = false ->
  add_usage_call self now p c model
    = (UsageReturned (fst (add_usage self now p c model)),
       snd (add_usage self now p c model)).
Proof. intros H. unfold add_usage_call, add_usage. cbv zeta. now rewrite H. Qed.

Lemma add_from_response_call_returns (self : t) (now : Q)
    (response : ApiResponse) (model : string) :
  (forall metadata p c,
     usage_metadata response = Some metadata ->
     prompt_token_count metadata = Some p ->
     candidates_token_count metadata = Some c ->
     TokenUsage.cost_estimate_overflows (TokenUsage.mk p c (p + c) model now)
       = false) ->
  add_from_response_call self now response model
    = add_from_response self now response model.
Proof.
  intros H. unfold add_from_response_call, add_from_response.
  destruct (usage_metadata response) as [md|] eqn:Em; [|reflexivity].
  destruct (prompt_token_count md) as [p|] eqn:Ep; [|reflexivity].
  destruct (candidates_token_count md) as [c|] eqn:Ec; [|reflexivity].
  rewrite add_usage_call_returns by (apply (H md); [reflexivity | assumption..]).
  now destruct (add_usage self now p c model).
Qed.

(** C7, amended.  A call of [add_usage] never clamps: whatever the counts,
    negative ones included, it appends a record that carries them exactly as
    supplied and adds them to the token totals.  It returns that record, with
    the cost added to the total cost, whenever both counts are at most 10^300
    in absolute value; it fails only when a count divided by 1000 leaves the
    float range, with OverflowError, and then the record and the token totals
    stay in the tracker while the total cost is unchanged. *)
Theorem add_usage_call_cases (self : t) (now : Q)
    (prompt_tokens completion_tokens : Z) (model : string) :
  let usage := TokenUsage.mk prompt_tokens completion_tokens
                 (prompt_tokens + completion_tokens) model now in
  let result := fst (add_usage_call self now prompt_tokens completion_tokens model) in
  let self' := snd (add_usage_call self now prompt_tokens completion_tokens model) in
  (usage_history self' = (usage_history self ++ [usage])%list /\
   _total_prompt_tokens self' = _total_prompt_tokens self + prompt_tokens /\
   _total_completion_tokens self'
     = _total_completion_tokens self + completion_tokens)
  /\
  (Z.abs prompt_tokens <= 10 ^ 300 -> Z.abs completion_tokens <= 10 ^ 300 ->
   result = UsageReturned usage /\
   _total_cost self' = (_total_cost self + TokenUsage.cost_estimate usage)%Q)
  /\
  (result <> UsageReturned usage ->
   result = UsageOverflowError /\
   TokenUsage.cost_estimate_overflows usage = true /\
   _total_cost self' = _total_cost self).
Proof.
  cbv zeta. unfold add_usage_call.
  destruct (TokenUsage.cost_estimate_overflows _) eqn:E;
    cbn [fst snd usage_history _total_prompt_tokens _total_completion_tokens
         _total_cost].
  - split; [repeat split|]. split.
    + intros Hp Hc. exfalso. unfold TokenUsage.cost_estimate_overflows in E.
      cbn [TokenUsage.prompt_tokens TokenUsage.completion_tokens] in E.
      rewrite (small_count_in_float_range _ Hp) in E.
      rewrite (small_count_in_float_range _ Hc) in E. discriminate.
    + intros _. repeat split.
  - split; [repeat split|]. split.
    + intros _ _. split; reflexivity.
    + intros H. now elim H.
Qed.

(** C7 as stated fails twice: a negative prompt count is stored and
    aggregated as it is, not as 0; and the operation can fail, with the
    record already stored: a count of 10^400 raises OverflowError. *)
Lemma negative_tokens_not_clamped :
  let call := add_usage_call init 0 (-5) 3 "gemini-pro" in
  let huge := add_usage_call init 0 (10 ^ 400) 0 "gemini-pro" in
  (exists usage,
     fst call = UsageReturned usage /\
     TokenUsage.prompt_tokens usage = -5 /\
     TokenUsage.prompt_tokens usage <> Z.max 0 (-5) /\
     usage_history (snd call) = [usage]) /\
  _total_prompt_tokens (snd call) = -5 /\
  fst huge = UsageOverflowError /\
  List.length (usage_history (snd huge)) = 1%nat.
Proof.
  cbv zeta. split; [|repeat split].
  eexists. split; [reflexivity|]. repeat split. discriminate.
Qed.

Lemma add_usage_call_cases_witness :
  let usage := TokenUsage.mk (-5) 3 (-5 + 3) "gemini-pro" 0 in
  fst (add_usage_call init 0 (-5) 3 "gemini-pro") = UsageReturned usage /\
  _total_cost (snd (add_usage_call init 0 (-5) 3 "gemini-pro"))
    = (_total_cost init + TokenUsage.cost_estimate usage)%Q.
Proof.
  apply (proj1 (proj2 (add_usage_call_cases init 0 (-5) 3 "gemini-pro"))).
  - vm_compute. discriminate.
  - vm_compute. discriminate.
Defined.

(** *** Further properties of the cost tracker *)

(** The cost of a record only depends on its model through the rates that
    the model selects, and those are rates of the pricing table. *)
Lemma cost_estimate_rates (model : string) :
  exists rates,
    In rates (map snd pricing) /\
    forall p c tot ts,
      TokenUsage.cost_estimate (TokenUsage.mk p c tot model ts)
        = (inject_Z p / 1000 * input rates + inject_Z c / 1000 * output rates)%Q.
Proof.
  unfold TokenUsage.cost_estimate. cbn [TokenUsage.model TokenUsage.prompt_tokens
    TokenUsage.completion_tokens pricing map fst snd find_model_key].
  repeat match goal with
         | |- context [if PyStr.contains ?a ?b then _ else _] =>
             destruct (PyStr.contains a b)
         end;
    eexists; (split; [|intros; reflexivity]); cbn [input output In]; tauto.
Qed.

Lemma rates_nonneg (rates : Rates) :
  In rates (map snd pricing) -> (0 <= input rates)%Q /\ (0 <= output rates)%Q.
Proof.
  cbn [pricing map snd In].
  intros [<-|[<-|[<-|[<-|[]]]]]; split; vm_compute; discriminate.
Qed.

(** Non-negative token counts never give a negative cost, whatever the
    model name, known or not. *)
Theorem cost_estimate_nonneg (usage : TokenUsage.t) :
  0 <= TokenUsage.prompt_tokens usage ->
  0 <= TokenUsage.completion_tokens usage ->
  (0 <= TokenUsage.cost_estimate usage)%Q.
Proof.
  destruct usage as [p c tot m ts]. cbn [TokenUsage.prompt_tokens
    TokenUsage.completion_tokens]. intros Hp Hc.
  destruct (cost_estimate_rates m) as (rates & Hin & Heq). rewrite Heq.
  destruct (rates_nonneg rates Hin) as [Hi Ho].
  assert (Hq : forall z, 0 <= z -> (0 <= inject_Z z / 1000)%Q).
  { intros z Hz. apply Qmult_le_0_compat.
    - change 0%Q with (inject_Z 0). now rewrite <- Zle_Qle.
    - vm_compute. discriminate. }
  apply Qplus_le_compat with (x := 0%Q) (z := 0%Q);
    apply Qmult_le_0_compat; auto.
Qed.

(** How the rates are chosen: a model whose lowered name contains none of
    the pricing keys is priced as gemini-pro; a model whose lowered name
    contains "gemini-2.5-flash" gets the gemini-2.5-flash rates whatever else
    it contains; and two models that differ only by case cost the same. *)
Theorem model_pricing_selection (p c tot : Z) (ts : Q) (model : string) :
  ((forall key, In key (map fst pricing) ->
      PyStr.contains key (PyStr.lower model) = false) ->
   TokenUsage.cost_estimate (TokenUsage.mk p c tot model ts)
     = (inject_Z p / 1000 * (5 # 10000) + inject_Z c / 1000 * (15 # 10000))%Q)
  /\
  (PyStr.contains "gemini-2.5-flash" (PyStr.lower model) = true ->
   TokenUsage.cost_estimate (TokenUsage.mk p c tot model ts)
     = (inject_Z p / 1000 * (1875 # 100000000)
        + inject_Z c / 1000 * (75 # 1000000))%Q)
  /\
  (forall model', PyStr.lower model' = PyStr.lower model ->
   TokenUsage.cost_estimate (TokenUsage.mk p c tot model' ts)
     = TokenUsage.cost_estimate (TokenUsage.mk p c tot model ts)).
Proof.
  unfold TokenUsage.cost_estimate.
  cbn [TokenUsage.model TokenUsage.prompt_tokens TokenUsage.completion_tokens].
  split; [|split].
  - intros Hnone. cbn [pricing map fst find_model_key].
    rewrite !Hnone by (cbn [pricing map fst In]; tauto). reflexivity.
  - intros Hf. cbn [pricing map fst find_model_key]. rewrite Hf. reflexivity.
  - intros model' Hl. now rewrite Hl.
Qed.

(** A call of [add_from_response] that returns a record did exactly what
    the returning [add_usage] does with the two counts of the metadata.  A
    call that returns [None] left the tracker unchanged when the response
    had no usage metadata or lacked a count; but when the estimate of the
    counts overflows, [None] is returned although the record has been
    appended and the token totals updated. *)
Theorem add_from_response_call_cases (self : t) (now : Q)
    (response : ApiResponse) (model : string) :
  let self' := snd (add_from_response_call self now response model) in
  match fst (add_from_response_call self now response model) with
  | Some usage =>
      exists metadata p c,
        usage_metadata response = Some metadata /\
        prompt_token_count metadata = Some p /\
        candidates_token_count metadata = Some c /\
        TokenUsage.cost_estimate_overflows usage = false /\
        usage = fst (add_usage self now p c model) /\
        self' = snd (add_usage self now p c model)
  | None =>
      (self' = self /\
       (usage_metadata response = None \/
        exists metadata,
          usage_metadata response = Some metadata /\
          (prompt_token_count metadata = None \/
           candidates_token_count metadata = None)))
      \/
      (exists metadata p c,
         usage_metadata response = Some metadata /\
         prompt_token_count metadata = Some p /\
         candidates_token_count metadata = Some c /\
         TokenUsage.cost_estimate_overflows
           (TokenUsage.mk p c (p + c) model now) = true /\
         usage_history self'
           = (usage_history self ++ [TokenUsage.mk p c (p + c) model now])%list /\
         _total_prompt_tokens self' = _total_prompt_tokens self + p /\
         _total_completion_tokens self' = _total_completion_tokens self + c /\
         _total_cost self' = _total_cost self)
  end.
Proof.
  cbv zeta. unfold add_from_response_call.
  destruct (usage_metadata response) as [md|]; [|cbn; left; auto].
  destruct (prompt_token_count md) as [p|] eqn:Ep.
  - destruct (candidates_token_count md) as [c|] eqn:Ec.
    + unfold add_usage_call. cbv zeta.
      destruct (TokenUsage.cost_estimate_overflows _) eqn:E; cbn [fst snd].
      * right. exists md, p, c. repeat split; assumption.
      * exists md, p, c. repeat split; assumption.
    + cbn [fst snd]. left. split; [reflexivity|]. right. exists md. auto.
  - cbn [fst snd]. left. split; [reflexivity|]. right. exists md. auto.
Qed.

(** The case that the returning model leaves out, on a concrete response:
    [None] comes back and the record is in the history. *)
Example add_from_response_overflow_keeps_record :
  let response :=
    mk_api_response (Some (mk_metadata (Some (10 ^ 400)) (Some 0))) in
  fst (add_from_response_call init 0 response "gemini-pro") = None /\
  List.length (usage_history (snd (add_from_response_call init 0 response
                                     "gemini-pro"))) = 1%nat.
Proof. cbv zeta. split; reflexivity. Qed.

(** A tracker that holds no record reports zeros everywhere, averages
    included: nothing is divided by the zero request count.  This covers a
    fresh tracker, one that was reset, and one whose responses all lacked
    usage metadata. *)
Theorem empty_summary_is_zero (ops : list operation) :
  usage_history (run ops) = [] ->
  let summary := get_summary (run ops) in
  Summary.total_requests summary = 0 /\
  Summary.total_tokens summary = 0 /\
  Summary.prompt_tokens summary = 0 /\
  Summary.completion_tokens summary = 0 /\
  (Summary.estimated_cost_usd summary == 0)%Q /\
  Summary.average_tokens_per_request summary = 0%Q /\
  Summary.average_cost_per_request summary = 0%Q.
Proof.
  intros He. cbv zeta. destruct (consistent_run ops) as (Hp & Hc & Hq).
  rewrite He in Hp, Hc, Hq. cbn [sum_prompt sum_completion sum_cost fold_right] in *.
  unfold get_summary, total_tokens, request_count. rewrite He, Hp, Hc.
  cbn [Summary.total_requests Summary.total_tokens Summary.prompt_tokens
       Summary.completion_tokens Summary.estimated_cost_usd
       Summary.average_tokens_per_request Summary.average_cost_per_request
       List.length Z.of_nat Z.add Z.ltb Z.compare].
  repeat split.
  rewrite (round_comp _ 0 4 Hq). reflexivity.
Qed.










Lemma length_append (a b : string) :
  String.length (a ++ b) = (String.length a + String.length b)%nat.
Proof. induction a as [|c a IH]; cbn; [reflexivity | now rewrite IH]. Qed.

(** [estimate_tokens] is the length divided by 4, rounded down: never
    negative, 0 for texts of fewer than 4 characters, and on a concatenation
    at least the sum of the two estimates and at most one more. *)
Theorem estimate_tokens_bounds (a b : string) :
  0 <= estimate_tokens a /\
  4 * estimate_tokens a <= Z.of_nat (String.length a) < 4 * estimate_tokens a + 4 /\
  estimate_tokens a + estimate_tokens b <= estimate_tokens (a ++ b) /\
  estimate_tokens (a ++ b) <= estimate_tokens a + estimate_tokens b + 1.
Proof.
  unfold estimate_tokens. rewrite length_append, Nat2Z.inj_add.
  pose proof (Nat2Z.is_nonneg (String.length a)).
  pose proof (Nat2Z.is_nonneg (String.length b)).
  repeat split; Z.div_mod_to_equations; lia.
Qed.

(** The recommended model is always one that the pricing table knows under
    its own key, so its cost is never estimated with the fallback rates;
    [cost_priority] wins over [quality_priority], and without either the
    choice follows the prompt length. *)
Theorem recommend_model_is_priced (prompt_length : Z)
    (quality_priority cost_priority : bool) :
  let model := recommend_model prompt_length quality_priority cost_priority in
  find_model_key (map fst pricing) (PyStr.lower model) = Some model /\
  (cost_priority = true -> model = "gemini-2.5-flash") /\
  (cost_priority = false -> quality_priority = true -> model = "gemini-2.5-pro") /\
  (cost_priority = false -> quality_priority = false ->
   (model = "gemini-2.5-flash" <-> prompt_length < 1000)).
Proof.
  cbv zeta. unfold recommend_model.
  destruct cost_priority, quality_priority;
    try destruct (Z.ltb_spec prompt_length 1000);
    repeat split; intros; try reflexivity; try discriminate; try lia.
Qed.

Lemma cost_estimate_nonneg_witness :
  (0 <= TokenUsage.cost_estimate
          (TokenUsage.mk 1000 500 1500 "Gemini-2.5-Pro-latest" 0))%Q.
Proof.
  apply (cost_estimate_nonneg
           (TokenUsage.mk 1000 500 1500 "Gemini-2.5-Pro-latest" 0)).
  - simpl. lia.
  - simpl. lia.
Defined.

Lemma model_pricing_selection_witness :
  TokenUsage.cost_estimate (TokenUsage.mk 1000 1000 2000 "claude-3" 0)
    = (inject_Z 1000 / 1000 * (5 # 10000) + inject_Z 1000 / 1000 * (15 # 10000))%Q
  /\
  TokenUsage.cost_estimate
    (TokenUsage.mk 1000 1000 2000 "models/Gemini-2.5-Flash-001" 0)
    = (inject_Z 1000 / 1000 * (1875 # 100000000)
       + inject_Z 1000 / 1000 * (75 # 1000000))%Q.
Proof.
  split.
  - apply (proj1 (model_pricing_selection 1000 1000 2000 0 "claude-3")).
    intros key Hin. cbn [pricing map fst In] in Hin.
    destruct Hin as [<-|[<-|[<-|[<-|[]]]]]; reflexivity.
  - apply (proj1 (proj2 (model_pricing_selection 1000 1000 2000 0
                           "models/Gemini-2.5-Flash-001"))).
    reflexivity.
Defined.

Lemma empty_summary_is_zero_witness :
  let summary :=
    get_summary (run [AddUsage 0 100 50 "gemini-pro"; Reset;
                      AddFromResponse 0 (mk_api_response None) "gemini-pro"]) in
  Summary.total_requests summary = 0 /\
  Summary.total_tokens summary = 0 /\
  Summary.prompt_tokens summary = 0 /\
  Summary.completion_tokens summary = 0 /\
  (Summary.estimated_cost_usd summary == 0)%Q /\
  Summary.average_tokens_per_request summary = 0%Q /\
  Summary.average_cost_per_request summary = 0%Q.
Proof.
  apply (empty_summary_is_zero
           [AddUsage 0 100 50 "gemini-pro"; Reset;
            AddFromResponse 0 (mk_api_response None) "gemini-pro"]).
  reflexivity.
Defined.


End CostProofs.

(** ** Safety settings *)

Module SafetyConfigProofs.
Import SafetyConfig.

Local Open Scope string_scope.

(** Whatever the thresholds, [custom] lists the four categories once each,
    in the order of the enum, and gives each category the threshold passed
    for it; each preset is [custom] with one threshold for all categories,
    and the default settings for google.generativeai are the moderate
    ones. *)
Theorem settings_cover_categories
    (harassment hate_speech sexually_explicit dangerous_content : SafetyThreshold) :
  let settings :=
    SafetyPreset.custom harassment hate_speech sexually_explicit dangerous_content in
  map category settings = map category_value all_categories /\
  NoDup (map category settings) /\
  threshold_of settings HARASSMENT = Some (threshold_value harassment) /\
  threshold_of settings HATE_SPEECH = Some (threshold_value hate_speech) /\
  threshold_of settings SEXUALLY_EXPLICIT = Some (threshold_value sexually_explicit) /\
  threshold_of settings DANGEROUS_CONTENT = Some (threshold_value dangerous_content) /\
  (forall t,
     map (fun c => mk_setting (category_value c) (threshold_value t)) all_categories
       = SafetyPreset.custom t t t t) /\
  SafetyPreset.permissive
    = SafetyPreset.custom BLOCK_ONLY_HIGH BLOCK_ONLY_HIGH BLOCK_ONLY_HIGH
        BLOCK_ONLY_HIGH /\
  SafetyPreset.strict
    = SafetyPreset.custom BLOCK_LOW_AND_ABOVE BLOCK_LOW_AND_ABOVE
        BLOCK_LOW_AND_ABOVE BLOCK_LOW_AND_ABOVE /\
  get_safety_settings_for_genai
    = SafetyPreset.custom BLOCK_MEDIUM_AND_ABOVE BLOCK_MEDIUM_AND_ABOVE
        BLOCK_MEDIUM_AND_ABOVE BLOCK_MEDIUM_AND_ABOVE.
Proof.
  cbv zeta. repeat split.
  cbn [SafetyPreset.custom map category category_value].
  repeat constructor; cbn [In]; intuition discriminate.
Qed.

Lemma count_nl_app (a b : string) :
  count_nl (a ++ b) = (count_nl a + count_nl b)%nat.
Proof.
  induction a as [|c a IH]; cbn [append count_nl]; [reflexivity|].
  rewrite IH. lia.
Qed.

Lemma count_nl_join (parts : list string) :
  parts <> [] -> Forall (fun s => count_nl s = 0%nat) parts ->
  count_nl (join nl parts) = (List.length parts - 1)%nat.
Proof.
  induction parts as [|x parts IH]; intros Hne HF; [congruence|].
  inversion HF as [|y l Hx HF']; subst.
  destruct parts as [|y parts].
  - cbn [join List.length]. rewrite Hx. reflexivity.
  - change (join nl (x :: y :: parts)) with (x ++ nl ++ join nl (y :: parts)).
    rewrite !count_nl_app, Hx, IH; [|discriminate|assumption].
    cbn [List.length]. change (count_nl nl) with 1%nat. lia.
Qed.

Lemma prefix_app (a b : string) : String.prefix a (a ++ b) = true.
Proof.
  induction a as [|c a IH]; cbn [append String.prefix].
  - destruct b; reflexivity.
  - destruct (ascii_dec c c); [exact IH | congruence].
Qed.

Lemma append_assoc (a b c : string) : (a ++ b) ++ c = a ++ b ++ c.
Proof. induction a as [|x a IH]; cbn [append]; [reflexivity | now rewrite IH]. Qed.

(** The explanation of a non-empty list of ratings whose category and
    probability texts hold no newline has one header line followed by one
    line per rating; keys that are missing read as UNKNOWN.  Without ratings
    the explanation is a single line. *)
Theorem explanation_line_count (safety_ratings : list Rating) :
  safety_ratings <> [] ->
  Forall (fun r =>
            count_nl (get_or_unknown (rating_category r)) = 0%nat /\
            count_nl (get_or_unknown (rating_probability r)) = 0%nat)
         safety_ratings ->
  count_nl (explain_safety_rating safety_ratings) = List.length safety_ratings /\
  String.prefix ("Safety Ratings:" ++ nl) (explain_safety_rating safety_ratings)
    = true /\
  count_nl (explain_safety_rating []) = 0%nat.
Proof.
  intros Hne HF. split; [|split; [|reflexivity]].
  - destruct safety_ratings as [|r rs]; [congruence|].
    unfold explain_safety_rating.
    rewrite !count_nl_app, count_nl_join.
    + rewrite length_map. cbn [List.length].
      change (count_nl "Safety Ratings:") with 0%nat.
      change (count_nl nl) with 1%nat. lia.
    + discriminate.
    + apply Forall_map. eapply Forall_impl; [|exact HF].
      intros a [Hc Hp]. unfold explanation.
      rewrite !count_nl_app, Hc, Hp. reflexivity.
  - destruct safety_ratings as [|r rs]; [congruence|].
    unfold explain_safety_rating. rewrite <- append_assoc. apply prefix_app.
Qed.

Lemma explanation_line_count_witness :
  let ratings :=
    [mk_rating (Some "HARM_CATEGORY_HARASSMENT") (Some "LOW");
     mk_rating None (Some "HIGH");
     mk_rating (Some "HARM_CATEGORY_HATE_SPEECH") None] in
  count_nl (explain_safety_rating ratings) = List.length ratings /\
  String.prefix ("Safety Ratings:" ++ nl) (explain_safety_rating ratings) = true /\
  count_nl (explain_safety_rating []) = 0%nat.
Proof.
  intros ratings.
  apply (explanation_line_count ratings).
  - discriminate.
  - repeat constructor.
Defined.

End SafetyConfigProofs.
